(** * rtlamr: the SCM parser, the [parse] package and message formatting

    A shallow embedding of [scm/scm.go] and of package [parse] (registry,
    [Data], [LogMessage], [RSSI], [FilterChain]), with the properties the
    specification states about them.

    Conventions of the embedding:
    - Go's unsigned integers are [Z] with the wrap-around written out,
      [int] lengths and indices are [nat] (no length here can reach 2^63);
    - a [[]byte] is a [list byte], a Go [string] is a [string];
    - a run-time panic is the outcome [Panic msg] of the [result] type;
    - packages [decode] and [crc], which the parser only calls, appear
      through the interface it uses: a [Decoder] is its [Slice] method, a
      [CRC] is its [Checksum] method;
    - what the standard packages [strconv], [fmt], [time] and [math] do is
      written out for the calls the sources make. *)

From Stdlib Require Import ZArith NArith List String Ascii Lia Bool Floats.
From Stdlib.Strings Require Import Byte.
From Equations Require Import Equations.
From stdpp Require Import base gmap strings list.

Set Warnings "-inexact-float,-clear-no-such-hyp".

Local Open Scope string_scope.
Local Open Scope Z_scope.
Local Open Scope stdpp_scope.
Local Open Scope list_scope.

(** ** Outcomes *)

Inductive result (A : Type) : Type :=
| Ok (a : A)
| Panic (msg : string).
Arguments Ok {A} a.
Arguments Panic {A} msg.

Definition bind {A B : Type} (r : result A) (k : A → result B) : result B :=
  match r with
  | Ok a => k a
  | Panic msg => Panic msg
  end.

Notation "x ←! r ; k" := (bind r (λ x, k))
  (at level 100, r at next level, right associativity, only parsing).

Definition is_Ok {A : Type} (r : result A) : Prop := ∃ a, r = Ok a.

(** ** Slices and index expressions of Go *)

Fixpoint string_drop (n : nat) (s : string) : string :=
  match n, s with
  | O, _ => s
  | S n', String _ rest => string_drop n' rest
  | S _, EmptyString => EmptyString
  end.

Fixpoint string_take (n : nat) (s : string) : string :=
  match n, s with
  | S n', String c rest => String c (string_take n' rest)
  | _, _ => EmptyString
  end.

(** [s[lo:hi]] on a string: panics unless [lo <= hi <= len(s)]. *)
Definition slice_string (s : string) (lo hi : nat) : result string :=
  if (lo <=? hi)%nat && (hi <=? String.length s)%nat
  then Ok (string_take (hi - lo) (string_drop lo s))
  else Panic "slice bounds out of range".

(** [b[lo:hi]] on a byte slice whose capacity is its length (as the ones
    [Parse] handles after its length gate). *)
Definition slice_bytes (b : list byte) (lo hi : nat) : result (list byte) :=
  if (lo <=? hi)%nat && (hi <=? length b)%nat
  then Ok (take (hi - lo) (drop lo b))
  else Panic "slice bounds out of range".

(** [b[i] = v]: panics when [i] is out of range. *)
Definition set_index (b : list byte) (i : nat) (v : byte) : result (list byte) :=
  if (i <? length b)%nat then Ok (<[i:=v]> b) else Panic "index out of range".

(** ** Integer conversions *)

Definition uint8 (z : Z) : Z := z mod 2^8.
Definition uint16 (z : Z) : Z := z mod 2^16.
Definition uint32 (z : Z) : Z := z mod 2^32.
Definition uint64 (z : Z) : Z := z mod 2^64.

Definition Z_of_byte (b : byte) : Z := Z.of_N (Byte.to_N b).

Definition byte_of_Z (z : Z) : byte :=
  match Byte.of_N (Z.to_N (uint8 z)) with
  | Some b => b
  | None => x00
  end.

Fixpoint repeat_char (c : ascii) (n : nat) : string :=
  match n with
  | O => EmptyString
  | S n' => String c (repeat_char c n')
  end.

Definition pad_left (c : ascii) (width : nat) (s : string) : string :=
  repeat_char c (width - String.length s) +:+ s.

(** * The standard packages the sources call, as far as they call them *)

Module strconv.

Inductive NumError : Type := ErrSyntax | ErrRange | ErrBase | ErrBitSize.

Definition digit_val (c : ascii) : option Z :=
  let n := Z.of_N (N_of_ascii c) in
  if (48 <=? n) && (n <=? 57) then Some (n - 48)
  else if (97 <=? n) && (n <=? 122) then Some (n - 97 + 10)
  else if (65 <=? n) && (n <=? 90) then Some (n - 65 + 10)
  else None.

Fixpoint ParseUint_digits (s : string) (base maxVal cutoff n : Z)
  : Z * option NumError :=
  match s with
  | EmptyString => (n, None)
  | String c rest =>
      match digit_val c with
      | None => (0, Some ErrSyntax)
      | Some d =>
          if base <=? d then (0, Some ErrSyntax)
          else if cutoff <=? n then (maxVal, Some ErrRange)
          else
            let n' := n * base in
            let n1 := uint64 (n' + d) in
            if (n1 <? n') || (maxVal <? n1) then (maxVal, Some ErrRange)
            else ParseUint_digits rest base maxVal cutoff n1
      end
  end.

(** [ParseUint(s, base, bitSize)] for an explicit base 2..36 (the sources
    only pass base 2): the number and the error, [None] for nil. *)
Definition ParseUint (s : string) (base bitSize : Z) : Z * option NumError :=
  match s with
  | EmptyString => (0, Some ErrSyntax)
  | _ =>
      if negb ((2 <=? base) && (base <=? 36)) then (0, Some ErrBase)
      else if (bitSize <? 0) || (64 <? bitSize) then (0, Some ErrBitSize)
      else
        let bitSize := if bitSize =? 0 then 64 else bitSize in
        let cutoff := (2^64 - 1) / base + 1 in
        let maxVal := 2^bitSize - 1 in
        ParseUint_digits s base maxVal cutoff 0
  end.

Definition digit_char (upper : bool) (d : Z) : ascii :=
  if d <? 10 then ascii_of_N (Z.to_N (48 + d))
  else if upper then ascii_of_N (Z.to_N (65 + d - 10))
  else ascii_of_N (Z.to_N (97 + d - 10)).

(** Digits of [n] in [base], most significant first; [fuel] is the size of
    the digit buffer. *)
Fixpoint format_digits (fuel : nat) (upper : bool) (base n : Z) (acc : string)
  : string :=
  match fuel with
  | O => acc
  | S fuel' =>
      let acc' := String (digit_char upper (n mod base)) acc in
      if n / base =? 0 then acc'
      else format_digits fuel' upper base (n / base) acc'
  end.

(** [FormatUint(n, base)]: a uint64 has at most 64 digits. *)
Definition FormatUint (n base : Z) : string :=
  format_digits 64 false base (uint64 n) EmptyString.

(** [FormatInt(n, base)] *)
Definition FormatInt (n base : Z) : string :=
  if n <? 0 then String "-" (format_digits 64 false base (- n) EmptyString)
  else format_digits 64 false base n EmptyString.

(** [num * 2^e] rounded to an integer, ties to even. *)
Definition round_half_even (num e : Z) : Z :=
  if 0 <=? e then num * 2 ^ e
  else
    let d := 2 ^ (- e) in
    let q := num / d in
    let r := num mod d in
    if 2 * r <? d then q
    else if d <? 2 * r then q + 1
    else if Z.even q then q else q + 1.

(** The format ['f'] on a binary64 number: its exact value rounded to
    [prec] decimals. *)
Definition FormatFloat_f (f : float) (prec : nat) : string :=
  let fixed (neg : bool) (scaled : Z) : string :=
    let unit := 10 ^ Z.of_nat prec in
    (if neg then "-" else EmptyString)
      +:+ FormatInt (scaled / unit) 10
      +:+ (if (prec =? 0)%nat then EmptyString
           else String "." (pad_left "0" prec (FormatInt (scaled mod unit) 10)))
  in
  match Prim2SF f with
  | S754_nan => "NaN"
  | S754_infinity false => "+Inf"
  | S754_infinity true => "-Inf"
  | S754_zero neg => fixed neg 0
  | S754_finite neg m e =>
      fixed neg (round_half_even (Z.pos m * 10 ^ Z.of_nat prec) e)
  end.

(** [FormatFloat(f, fmt, prec, bitSize)], for the format ['f'] of a
    float64. *)
Definition FormatFloat (f : float) (fmt : ascii) (prec : nat) (bitSize : Z)
  : string :=
  if Ascii.eqb fmt "f" && (bitSize =? 64) then FormatFloat_f f prec
  else String "%" (String fmt EmptyString).

End strconv.

Module fmt.

Inductive Arg : Type :=
| ArgInt (z : Z)
| ArgStr (s : string).

Definition fmt_integer (upper : bool) (base : Z) (zero : bool) (width : nat)
    (z : Z) : string :=
  let digits := strconv.format_digits 64 upper base (Z.abs z) EmptyString in
  if z <? 0 then
    if zero then String "-" (pad_left "0" (width - 1) digits)
    else pad_left " " width (String "-" digits)
  else pad_left (if zero then "0" else " ")%char width digits.

Definition fmt_verb (verb : ascii) (zero : bool) (width : nat) (a : Arg)
  : string :=
  match a with
  | ArgInt z =>
      if Ascii.eqb verb "d" then fmt_integer false 10 zero width z
      else if Ascii.eqb verb "b" then fmt_integer false 2 zero width z
      else if Ascii.eqb verb "x" then fmt_integer false 16 zero width z
      else if Ascii.eqb verb "X" then fmt_integer true 16 zero width z
      else "%!" +:+ String verb "(BADVERB)"
  | ArgStr s =>
      if Ascii.eqb verb "s" then pad_left " " width s
      else "%!" +:+ String verb "(BADVERB)"
  end.

(** The scanner's state: in literal text, or after a [%] reading the zero
    flag and the width. *)
Inductive fmt_state : Type :=
| Literal
| Directive (zero : bool) (width : nat) (flags : bool).

Definition ascii_digit (c : ascii) : option nat :=
  let n := nat_of_ascii c in
  if (48 <=? n)%nat && (n <=? 57)%nat then Some (n - 48)%nat else None.

Fixpoint Sprintf_scan (format : string) (st : fmt_state) (args : list Arg)
  : string :=
  match format with
  | EmptyString => EmptyString
  | String c rest =>
      match st with
      | Literal =>
          if Ascii.eqb c "%" then Sprintf_scan rest (Directive false 0 true) args
          else String c (Sprintf_scan rest Literal args)
      | Directive zero width flags =>
          if flags && Ascii.eqb c "0"
          then Sprintf_scan rest (Directive true 0 true) args
          else
            match ascii_digit c with
            | Some d =>
                Sprintf_scan rest (Directive zero (10 * width + d) false) args
            | None =>
                match args with
                | a :: args' =>
                    fmt_verb c zero width a +:+ Sprintf_scan rest Literal args'
                | [] =>
                    "%!" +:+ String c "(MISSING)" +:+ Sprintf_scan rest Literal []
                end
            end
      end
  end.

(** [Sprintf(format, args...)], for the verbs [%d %b %x %X %s] with a
    width and the zero flag. *)
Definition Sprintf (format : string) (args : list Arg) : string :=
  Sprintf_scan format Literal args.

(** The value [Errorf(format, args...)] builds, kept as the call: its text
    is the format filled in with the arguments. *)
Inductive error : Type := Errorf (format : string) (args : list Arg).

End fmt.

Module time.

(** A [Time] by its civil reading in its own zone; [ZoneOffset] is in
    seconds east of UTC. *)
Record Time : Type := mkTime {
  Year : Z; Month : Z; Day : Z;
  Hour : Z; Minute : Z; Second : Z; Nanosecond : Z;
  ZoneOffset : Z
}.

Inductive Layout : Type := RFC3339Nano.

(** The package's [appendInt]: zero-padded to [width], sign first. *)
Definition appendInt (x : Z) (width : nat) : string :=
  fmt.fmt_integer false 10 true (if x <? 0 then S width else width) x.

Fixpoint trim_zeros (digits : list ascii) : list ascii :=
  match digits with
  | [] => []
  | c :: rest =>
      match trim_zeros rest with
      | [] => if Ascii.eqb c "0" then [] else [c]
      | rest' => c :: rest'
      end
  end.

(** The [.999999999] element: nine digits, trailing zeros dropped, nothing
    at all for a whole second. *)
Definition formatNano (nanosec : Z) : string :=
  match trim_zeros (list_ascii_of_string (appendInt nanosec 9)) with
  | [] => EmptyString
  | digits => String "." (string_of_list_ascii digits)
  end.

(** The [Z07:00] element. *)
Definition formatZone (offset : Z) : string :=
  if offset =? 0 then "Z"
  else
    let zone := Z.quot offset 60 in
    (if zone <? 0 then "-" else "+")
      +:+ appendInt (Z.quot (Z.abs zone) 60) 2
      +:+ ":" +:+ appendInt (Z.rem (Z.abs zone) 60) 2.

(** [t.Format(layout)] *)
Definition Format (t : Time) (layout : Layout) : string :=
  match layout with
  | RFC3339Nano =>
      appendInt (Year t) 4 +:+ "-" +:+ appendInt (Month t) 2 +:+ "-"
        +:+ appendInt (Day t) 2 +:+ "T" +:+ appendInt (Hour t) 2 +:+ ":"
        +:+ appendInt (Minute t) 2 +:+ ":" +:+ appendInt (Second t) 2
        +:+ formatNano (Nanosecond t) +:+ formatZone (ZoneOffset t)
  end.

End time.

Module math.

Definition MaxFloat64 : float := 0x1.fffffffffffffp+1023%float.

(** [IsInf(f, sign)] *)
Definition IsInf (f : float) (sign : Z) : bool :=
  (0 <=? sign) && PrimFloat.ltb MaxFloat64 f
  || (sign <=? 0) && PrimFloat.ltb f (PrimFloat.opp MaxFloat64).

End math.

(** * package parse *)

Module parse.

Definition NewParserFunc (P : Type) : Type := Z → Z → P.

(** [Register], on the package's [parsers] map; a nil [parserFn] is [None].
    The mutex both functions take is released on every path, by [defer]. *)
Definition Register {P : Type} (name : string)
    (parserFn : option (NewParserFunc P)) (parsers : gmap string (NewParserFunc P))
  : result (gmap string (NewParserFunc P)) :=
  match parserFn with
  | None => Panic "parser: new parser func is nil"
  | Some fn =>
      match parsers !! name with
      | Some _ =>
          Panic (fmt.Sprintf "parser: parser already registered (%s)" [fmt.ArgStr name])
      | None => Ok (<[name:=fn]> parsers)
      end
  end.

Definition invalid_message_type : string :=
  "invalid message type: %q" +:+ String (ascii_of_nat 10) EmptyString.

(** [NewParser]: the pair [(Parser, error)], [None] for nil. *)
Definition NewParser {P : Type} (name : string) (symbolLength decimation : Z)
    (parsers : gmap string (NewParserFunc P)) : option P * option fmt.error :=
  match parsers !! name with
  | Some parserFn => (Some (parserFn symbolLength decimation), None)
  | None => (None, Some (fmt.Errorf invalid_message_type [fmt.ArgStr name]))
  end.

Record Data : Type := mkData { Bits : string; Bytes : list byte }.

(** [NewDataFromBytes]: [d.Bits] grows by the eight binary digits of each
    byte in turn. *)
Definition NewDataFromBytes (data : list byte) : Data :=
  {| Bytes := data;
     Bits := fold_left
               (λ bits b, bits +:+ fmt.Sprintf "%08b" [fmt.ArgInt (Z_of_byte b)])
               data EmptyString |}.

(** The body of the [for idx := 0; idx < len(data); idx += 8] loop of
    [NewDataFromBits]; it ends because [len(data) - idx] decreases. *)
Equations NewDataFromBits_loop (bits : string) (idx : nat) (bytes : list byte)
  : result (list byte) by wf (String.length bits - idx)%nat lt :=
NewDataFromBits_loop bits idx bytes with lt_dec idx (String.length bits) := {
  | right _ => Ok bytes
  | left _ with slice_string bits idx (idx + 8) := {
      | Panic msg => Panic msg
      | Ok chunk with set_index bytes (Nat.shiftr idx 3)
                        (byte_of_Z (uint8 (fst (strconv.ParseUint chunk 2 8)))) := {
          | Panic msg => Panic msg
          | Ok bytes' => NewDataFromBits_loop bits (idx + 8) bytes'
        }
    }
  }.
Next Obligation. lia. Qed.

Definition NewDataFromBits (data : string) : result Data :=
  bytes ←! NewDataFromBits_loop data 0
             (replicate (Nat.shiftr (String.length data + 7) 3) x00);
  Ok {| Bits := data; Bytes := bytes |}.

(** The [Message] interface, as the methods its implementations give.
    ([Idx] is left out: this revision of [scm.SCM] has no such method.) *)
Class Message (M : Type) : Type := {
  Record : M → list string;
  MsgType : M → string;
  MeterID : M → Z;
  MeterType : M → Z;
  Checksum : M → list byte
}.

Definition RSSI : Type := float.

Record Timestamp : Type := mkTimestamp { Timestamp_Time : time.Time }.

(** [LogMessage]; the fields [Time], [RSSI] and the embedded [Message] are
    written with a trailing underscore, apart from the types of that name. *)
Record LogMessage (M : Type) : Type := mkLogMessage {
  Time_ : Timestamp;
  Offset : Z;
  Length : Z;
  RSSI_ : RSSI;
  Message_ : M
}.
Arguments mkLogMessage {M}.
Arguments Time_ {M}.
Arguments Offset {M}.
Arguments Length {M}.
Arguments RSSI_ {M}.
Arguments Message_ {M}.

Definition RSSI_String (rssi : RSSI) : string :=
  strconv.FormatFloat rssi "f" 3 64.

Definition Timestamp_String (ts : Timestamp) : string :=
  time.Format (Timestamp_Time ts) time.RFC3339Nano.

Definition LogMessage_Record {M : Type} `{Message M} (msg : LogMessage M)
  : list string :=
  let r := [] in
  let r := r ++ [time.Format (Timestamp_Time (Time_ msg)) time.RFC3339Nano] in
  let r := r ++ [strconv.FormatInt (Offset msg) 10] in
  let r := r ++ [strconv.FormatInt (Length msg) 10] in
  let r := r ++ [RSSI_String (RSSI_ msg)] in
  let r := r ++ Record (Message_ msg) in
  r.

(** 20 * Log10(2^8) *)
Definition QuantNoise8bit : float := (-48.1647993062)%float.

(** [Sanitize], by the new value of the receiver. *)
Definition Sanitize (rssi : RSSI) : RSSI :=
  if math.IsInf rssi (-1) then QuantNoise8bit else rssi.

(** A [MessageFilter] is an object with a [Filter] method; what the method
    may read and change besides the message is the state [S]. *)
Record MessageFilter (M S : Type) : Type := mkFilter {
  Filter : M → S → bool * S
}.
Arguments mkFilter {M S}.
Arguments Filter {M S}.

Definition FilterChain (M S : Type) : Type := list (MessageFilter M S).

Definition Add {M S : Type} (fc : FilterChain M S) (filter : MessageFilter M S)
  : FilterChain M S :=
  fc ++ [filter].

Fixpoint Match_range {M S : Type} (fc : FilterChain M S) (msg : M) (s : S)
  : bool * S :=
  match fc with
  | [] => (true, s)
  | filter :: rest =>
      let (accepted, s') := Filter filter msg s in
      if negb accepted then (false, s') else Match_range rest msg s'
  end.

Definition Match {M S : Type} (fc : FilterChain M S) (msg : M) (s : S)
  : bool * S :=
  if (length fc =? 0)%nat then (true, s) else Match_range fc msg s.

End parse.

(** * packages decode and crc, by what the SCM parser uses of them *)

Module decode.

(** Of a decoder the parser uses the [Slice] method: from the candidate
    offsets to the raw packets found there. *)
Record Decoder : Type := mkDecoder { Slice : list Z → list (list byte) }.

Record PacketConfig : Type := mkPacketConfig {
  CenterFreq : Z;
  DataRate : Z;
  ChipLength : Z;
  PreambleSymbols : Z;
  PacketSymbols : Z;
  Preamble : string
}.

End decode.

Module crc.

(** Of a [CRC] the parser uses the [Checksum] method. *)
Record CRC : Type := mkCRC { Checksum : list byte → Z }.

Definition crc16_bit (poly crc : Z) : Z :=
  if Z.testbit crc 15 then Z.lxor (uint16 (Z.shiftl crc 1)) poly
  else uint16 (Z.shiftl crc 1).

Definition crc16_byte (poly crc : Z) (b : byte) : Z :=
  Nat.iter 8 (crc16_bit poly) (Z.lxor crc (Z.shiftl (Z_of_byte b) 8)).

(** Modelled from the spec: package [crc] is not among the sources. The spec
    calls it a cyclic-redundancy-style 16-bit checksum with a generator
    polynomial, an initial value and a final xor, which is zero for a valid
    packet; this is that checksum, most significant bit first, with
    [crc16_bit] and [crc16_byte] as its steps. *)
Definition NewCRC (name : string) (init poly final : Z) : CRC :=
  {| Checksum := λ data, Z.lxor (fold_left (crc16_byte poly) data init) final |}.

End crc.

(** * package scm *)

Module scm.

Definition NewPacketConfig (chipLength : Z) : decode.PacketConfig :=
  {| decode.CenterFreq := 912600155;
     decode.DataRate := 32768;
     decode.ChipLength := chipLength;
     decode.PreambleSymbols := 21;
     decode.PacketSymbols := 96;
     decode.Preamble := "111110010101001100000" |}.

(** [Parser] embeds a decoder and a checksum. *)
Record Parser : Type := mkParser {
  Parser_Decoder : decode.Decoder;
  Parser_CRC : crc.CRC
}.

(** [NewParser]; [decode.NewDecoder] is taken as an argument. *)
Definition NewParser (NewDecoder : decode.PacketConfig → decode.Decoder)
    (chipLength : Z)
  : Parser :=
  {| Parser_Decoder := NewDecoder (NewPacketConfig chipLength);
     Parser_CRC := crc.NewCRC "BCH" 0 0x6F63 0 |}.

(** Standard Consumption Message. (The field [Type] is written [Type_],
    and the method [String] below [String_].) *)
Record SCM : Type := mkSCM {
  ID : Z;
  Type_ : Z;
  TamperPhy : Z;
  TamperEnc : Z;
  Consumption : Z;
  ChecksumVal : Z
}.

Definition NewSCM (data : parse.Data) : result SCM :=
  id_hi ←! slice_string (parse.Bits data) 21 23;
  id_lo ←! slice_string (parse.Bits data) 56 80;
  let ertid := fst (strconv.ParseUint (id_hi +:+ id_lo) 2 26) in
  type_bits ←! slice_string (parse.Bits data) 26 30;
  let erttype := fst (strconv.ParseUint type_bits 2 4) in
  phy_bits ←! slice_string (parse.Bits data) 24 26;
  let tamperphy := fst (strconv.ParseUint phy_bits 2 2) in
  enc_bits ←! slice_string (parse.Bits data) 30 32;
  let tamperenc := fst (strconv.ParseUint enc_bits 2 2) in
  cons_bits ←! slice_string (parse.Bits data) 32 56;
  let consumption := fst (strconv.ParseUint cons_bits 2 24) in
  sum_bits ←! slice_string (parse.Bits data) 80 96;
  let checksum := fst (strconv.ParseUint sum_bits 2 16) in
  Ok {| ID := uint32 ertid;
        Type_ := uint8 erttype;
        TamperPhy := uint8 tamperphy;
        TamperEnc := uint8 tamperenc;
        Consumption := uint32 consumption;
        ChecksumVal := uint16 checksum |}.

(** One turn of the [for _, pkt := range ...] loop of [Parse], on the
    deduplication map [seen] and the messages collected so far. *)
Definition Parse_body (p : Parser) (st : gmap string bool * list SCM)
    (pkt : list byte) : result (gmap string bool * list SCM) :=
  let s := string_of_list_byte pkt in
  if default false (st.1 !! s) then Ok st
  else
    let seen := <[s:=true]> st.1 in
    let data := parse.NewDataFromBytes pkt in
    if negb (length (parse.Bytes data) =? 12)%nat then Ok (seen, st.2)
    else
      payload ←! slice_bytes (parse.Bytes data) 2 12;
      if negb (crc.Checksum (Parser_CRC p) payload =? 0) then Ok (seen, st.2)
      else
        scm ←! NewSCM data;
        if ID scm =? 0 then Ok (seen, st.2)
        else Ok (seen, st.2 ++ [scm]).

Fixpoint Parse_range (p : Parser) (pkts : list (list byte))
    (st : gmap string bool * list SCM)
  : result (gmap string bool * list SCM) :=
  match pkts with
  | [] => Ok st
  | pkt :: rest => st' ←! Parse_body p st pkt; Parse_range p rest st'
  end.

(** [Parse]: [seen] starts empty in every call and is dropped on return. *)
Definition Parse (p : Parser) (indices : list Z) : result (list SCM) :=
  st ←! Parse_range p (decode.Slice (Parser_Decoder p) indices) (∅, []);
  Ok st.2.

Definition MsgType (scm : SCM) : string := "SCM".
Definition MeterID (scm : SCM) : Z := ID scm.
Definition MeterType (scm : SCM) : Z := Type_ scm.

(** [binary.BigEndian.PutUint16] into a fresh two-byte slice. *)
Definition Checksum (scm : SCM) : list byte :=
  [byte_of_Z (Z.shiftr (ChecksumVal scm) 8); byte_of_Z (ChecksumVal scm)].

(** What [String] does to the outside, in order. *)
Inductive Event : Type :=
| ReadFile (name : string)
| LoadX509KeyPair (certFile keyFile : string)
| Println (text : string)
| Connect (broker clientID : string)
| Publish (topic : string) (qos : Z) (retained : bool) (payload : string)
| Disconnect (quiesce : Z).

(** What a call to the outside answers: a value, or an error. *)
Inductive answer (A : Type) : Type :=
| Value (a : A)
| Error (err : string).
Arguments Value {A} a.
Arguments Error {A} err.

(** The outside: the trusted certificates in [rootCA.pem], the client key
    pair, its leaf certificate as [Println] shows it, and the error of the
    broker connection, if any. *)
Record World : Type := mkWorld {
  rootCA_pem : answer (list byte);
  key_pair : answer (list byte);
  leaf_certificate : answer string;
  connect_error : option string
}.

Definition IO (A : Type) : Type := World → list Event * result A.

Definition io_ret {A : Type} (a : A) : IO A := λ _, ([], Ok a).

Definition io_panic {A : Type} (msg : string) : IO A := λ _, ([], Panic msg).

Definition io_bind {A B : Type} (m : IO A) (k : A → IO B) : IO B :=
  λ w,
    match m w with
    | (events, Ok a) => let (events', r) := k a w in (events ++ events', r)
    | (events, Panic msg) => (events, Panic msg)
    end.

(** A call to the outside: the event it leaves, and the world's answer. *)
Definition io_call {A : Type} (e : Event) (answer : World → A) : IO A :=
  λ w, ([e], Ok (answer w)).

(** A computation on what the world holds that leaves no event (here:
    parsing the certificate that was loaded). *)
Definition io_ask {A : Type} (answer : World → A) : IO A :=
  λ w, ([], Ok (answer w)).

Notation "x ←$ m ; k" := (io_bind m (λ x, k))
  (at level 100, m at next level, right associativity, only parsing).

Record TLSConfig : Type := mkTLSConfig {
  RootCAs : list (list byte);
  ClientCAs : list (list byte);
  InsecureSkipVerify : bool;
  Certificates : list (list byte)
}.

(** NewTLSConfig Setup the TLS configuration *)
Definition NewTLSConfig : IO TLSConfig :=
  pemCerts ←$ io_call (ReadFile "rootCA.pem") rootCA_pem;
  let certpool := match pemCerts with Value pem => [pem] | Error _ => [] end in
  cert ←$ io_call (LoadX509KeyPair "rtlsdr.certificate.crt" "rtlsdr.private.key")
            key_pair;
  match cert with
  | Error err => io_panic err
  | Value cert =>
      leaf ←$ io_ask leaf_certificate;
      match leaf with
      | Error err => io_panic err
      | Value leaf =>
          _ ←$ io_call (Println leaf) (λ _, tt);
          io_ret {| RootCAs := certpool;
                    ClientCAs := [];
                    InsecureSkipVerify := true;
                    Certificates := [cert] |}
      end
  end.

Definition SCM_format : string :=
  "{ID:%8d Type:%2d Tamper:{Phy:%02X Enc:%02X} Consumption:%8d CRC:0x%04X}".

Definition SCM_args (scm : SCM) : list fmt.Arg :=
  [fmt.ArgInt (ID scm); fmt.ArgInt (Type_ scm); fmt.ArgInt (TamperPhy scm);
   fmt.ArgInt (TamperEnc scm); fmt.ArgInt (Consumption scm);
   fmt.ArgInt (ChecksumVal scm)].

(** [String]: sets up the broker connection, writes the message out to the
    broker and returns its text. *)
Definition String_ (scm : SCM) : IO string :=
  tlsconfig ←$ NewTLSConfig;
  err ←$ io_call (Connect "ssl://data.iot.us-west-2.amazonaws.com:8883" "rtlsdr")
           connect_error;
  match err with
  | Some msg => io_panic msg
  | None =>
      _ ←$ io_call (Publish "/rtlsdr" 0 false (fmt.Sprintf SCM_format (SCM_args scm)))
             (λ _, tt);
      _ ←$ io_call (Disconnect 250) (λ _, tt);
      io_ret (fmt.Sprintf SCM_format (SCM_args scm))
  end.

Definition Record (scm : SCM) : list string :=
  let r := [] in
  let r := r ++ [strconv.FormatUint (ID scm) 10] in
  let r := r ++ [strconv.FormatUint (Type_ scm) 10] in
  let r := r ++ ["0x" +:+ strconv.FormatUint (TamperPhy scm) 16] in
  let r := r ++ ["0x" +:+ strconv.FormatUint (TamperEnc scm) 16] in
  let r := r ++ [strconv.FormatUint (Consumption scm) 10] in
  let r := r ++ ["0x" +:+ strconv.FormatUint (ChecksumVal scm) 16] in
  r.

#[global] Instance SCM_Message : parse.Message SCM := {|
  parse.Record := Record;
  parse.MsgType := MsgType;
  parse.MeterID := MeterID;
  parse.MeterType := MeterType;
  parse.Checksum := Checksum
|}.

End scm.

Import strconv fmt time math.

(** * Notions used to state the properties *)

#[global] Instance byte_eq_decision : EqDecision byte := byte_eq_dec.

(** The eight binary digits [NewDataFromBytes] writes for one byte. *)
Definition byte_bits (b : byte) : string := Sprintf "%08b" [ArgInt (Z_of_byte b)].

(** The number a string of binary digits denotes, continuing from [n]. *)
Fixpoint bin_value (s : string) (n : Z) : Z :=
  match s with
  | EmptyString => n
  | String c rest => bin_value rest (2 * n + (if Ascii.eqb c "1" then 1 else 0))
  end.

Fixpoint is_binary (s : string) : bool :=
  match s with
  | EmptyString => true
  | String c rest => (Ascii.eqb c "0" || Ascii.eqb c "1") && is_binary rest
  end.

(** The parser [p] with a decoder whose [Slice] yields [pkts]. *)
Definition with_packets (p : scm.Parser) (pkts : list (list byte)) : scm.Parser :=
  {| scm.Parser_Decoder := decode.mkDecoder (λ _, pkts);
     scm.Parser_CRC := scm.Parser_CRC p |}.

(** The length gate and the checksum gate of [Parse], on a raw packet. *)
Definition passes_length_and_checksum (p : scm.Parser) (pkt : list byte) : bool :=
  (length pkt =? 12)%nat
  && (crc.Checksum (scm.Parser_CRC p) (take 10 (drop 2 pkt)) =? 0).

(** [pkt] passes every gate of [Parse] and decodes to [m]. *)
Definition emits (p : scm.Parser) (pkt : list byte) (m : scm.SCM) : Prop :=
  length pkt = 12%nat
  ∧ crc.Checksum (scm.Parser_CRC p) (take 10 (drop 2 pkt)) = 0
  ∧ scm.NewSCM (parse.NewDataFromBytes pkt) = Ok m
  ∧ scm.ID m ≠ 0.

(** The message [Parse] appends for a packet it has not seen, if any. *)
Definition accepted (p : scm.Parser) (pkt : list byte) : option scm.SCM :=
  if passes_length_and_checksum p pkt then
    match scm.NewSCM (parse.NewDataFromBytes pkt) with
    | Ok m => if scm.ID m =? 0 then None else Some m
    | Panic _ => None
    end
  else None.

(** The packets of [pkts] at their first occurrence, those of [prev] apart. *)
Fixpoint dedup_from (prev pkts : list (list byte)) : list (list byte) :=
  match pkts with
  | [] => []
  | pkt :: rest =>
      if decide (pkt ∈ prev) then dedup_from prev rest
      else pkt :: dedup_from (pkt :: prev) rest
  end.

Definition first_occurrences (pkts : list (list byte)) : list (list byte) :=
  dedup_from [] pkts.

(** Sample packets: one that passes every gate under the BCH checksum
    (preamble, meter ID 123456, type 7, consumption 12109), the same with
    the last bit of its checksum flipped, and twelve zero bytes (checksum
    zero, meter ID 0). *)
Definition valid_packet : list byte :=
  [xf9; x53; x00; x5c; x00; x2f; x4d; x01; xe2; x40; x81; x61].

Definition corrupt_packet : list byte :=
  [xf9; x53; x00; x5c; x00; x2f; x4d; x01; xe2; x40; x81; x60].

Definition zero_packet : list byte := replicate 12 x00.

(** The SCM parser as [scm.NewParser] builds it, on a decoder that slices
    the packets [pkts]. *)
Definition bch_parser (pkts : list (list byte)) : scm.Parser :=
  scm.NewParser (λ _, decode.mkDecoder (λ _, pkts)) 72.

(** The message [valid_packet] decodes to. *)
Definition sample_scm : scm.SCM :=
  {| scm.ID := 123456; scm.Type_ := 7; scm.TamperPhy := 1; scm.TamperEnc := 0;
     scm.Consumption := 12109; scm.ChecksumVal := 33121 |}.

(** A world in which the client key pair loads and the broker accepts,
    and one without the key pair files. *)
Definition world_connected : scm.World :=
  {| scm.rootCA_pem := scm.Error "open rootCA.pem: no such file or directory";
     scm.key_pair := scm.Value [x30];
     scm.leaf_certificate := scm.Value "certificate";
     scm.connect_error := None |}.

Definition world_without_key : scm.World :=
  {| scm.rootCA_pem := scm.Error "open rootCA.pem: no such file or directory";
     scm.key_pair := scm.Error "open rtlsdr.certificate.crt: no such file or directory";
     scm.leaf_certificate := scm.Error "x509: malformed certificate";
     scm.connect_error := None |}.

Definition sample_time : parse.Timestamp :=
  parse.mkTimestamp
  {| Year := 2015; Month := 3; Day := 9; Hour := 7; Minute := 5; Second := 3;
     Nanosecond := 120000000; ZoneOffset := -18000 |}.

(** A filter with no state of its own: a predicate on the message. *)
Definition pure_filter {M S : Type} (accepts : M → bool) : parse.MessageFilter M S :=
  parse.mkFilter (λ msg s, (accepts msg, s)).

(** A filter that also counts its evaluations. *)
Definition counting_filter {M : Type} (accepts : M → bool) : parse.MessageFilter M nat :=
  parse.mkFilter (λ msg n, (accepts msg, S n)).

(** The first [n] groups of eight characters of a string. *)
Fixpoint groups_of_8 (n : nat) (s : string) : list string :=
  match n with
  | O => []
  | S n' => string_take 8 s :: groups_of_8 n' (string_drop 8 s)
  end.

(** The byte a group of binary digits denotes, and 0 for a group with any
    other character. *)
Definition group_byte (group : string) : byte :=
  if is_binary group then byte_of_Z (bin_value group 0) else x00.

(** Registrations in a row, as the [init] functions of the protocol
    packages make them: each on the registry the one before left, none
    after a panic. *)
Fixpoint Register_all {P : Type}
    (regs : list (string * option (parse.NewParserFunc P)))
    (parsers : gmap string (parse.NewParserFunc P))
  : result (gmap string (parse.NewParserFunc P)) :=
  match regs with
  | [] => Ok parsers
  | (name, parserFn) :: rest =>
      parsers' ←! parse.Register name parserFn parsers;
      Register_all rest parsers'
  end.

(** The fields of a message are values of their Go types. *)
Definition well_typed (m : scm.SCM) : Prop :=
  0 ≤ scm.ID m < 2 ^ 32 ∧ 0 ≤ scm.Type_ m < 2 ^ 8
  ∧ 0 ≤ scm.TamperPhy m < 2 ^ 8 ∧ 0 ≤ scm.TamperEnc m < 2 ^ 8
  ∧ 0 ≤ scm.Consumption m < 2 ^ 32 ∧ 0 ≤ scm.ChecksumVal m < 2 ^ 16.

(** Reading the fields of a record back with [strconv.ParseUint]: a number
    in the given base, a hexadecimal number after [0x], and the six fields
    of an SCM record. *)
Definition read_number (base : Z) (field : string) : option Z :=
  match ParseUint field base 64 with
  | (n, None) => Some n
  | (_, Some _) => None
  end.

Definition read_hex (field : string) : option Z :=
  match field with
  | String c0 (String c1 digits) =>
      if Ascii.eqb c0 "0" && Ascii.eqb c1 "x" then read_number 16 digits else None
  | _ => None
  end.

Definition read_Record (r : list string) : option scm.SCM :=
  match r with
  | [id; type; phy; enc; consumption; checksum] =>
      match read_number 10 id, read_number 10 type, read_hex phy,
            read_hex enc, read_number 10 consumption, read_hex checksum with
      | Some id, Some type, Some phy, Some enc, Some consumption, Some checksum =>
          Some (scm.mkSCM id type phy enc consumption checksum)
      | _, _, _, _, _, _ => None
      end
  | _ => None
  end.

(** * Properties *)

(** ** Strings and slices *)

Lemma string_app_cons (c : ascii) (a b : string) :
  String c a +:+ b = String c (a +:+ b).
Proof. reflexivity. Qed.

Lemma string_app_nil_l (b : string) : EmptyString +:+ b = b.
Proof. reflexivity. Qed.

Lemma string_length_app (a b : string) :
  String.length (a +:+ b) = (String.length a + String.length b)%nat.
Proof.
  induction a as [|c a IH]; [reflexivity|].
  rewrite string_app_cons. simpl. now rewrite IH.
Qed.

Lemma string_app_assoc (a b c : string) : (a +:+ b) +:+ c = a +:+ (b +:+ c).
Proof.
  induction a as [|x a IH]; [reflexivity|].
  rewrite !string_app_cons. now rewrite IH.
Qed.

Lemma string_app_nil_r (a : string) : a +:+ EmptyString = a.
Proof.
  induction a as [|x a IH]; [reflexivity|].
  rewrite string_app_cons. now rewrite IH.
Qed.

Lemma string_drop_app (a b : string) : string_drop (String.length a) (a +:+ b) = b.
Proof.
  induction a as [|x a IH]; [now destruct b|].
  rewrite string_app_cons. simpl. exact IH.
Qed.

Lemma string_take_app (a b : string) : string_take (String.length a) (a +:+ b) = a.
Proof.
  induction a as [|x a IH]; [now destruct b|].
  rewrite string_app_cons. simpl. now rewrite IH.
Qed.

(** The slice that starts after [a] and spans [b] is [b]. *)
Lemma slice_string_middle (a b c : string) (lo hi : nat) :
  lo = String.length a →
  hi = (lo + String.length b)%nat →
  slice_string (a +:+ b +:+ c) lo hi = Ok b.
Proof.
  intros -> ->. unfold slice_string.
  rewrite !string_length_app.
  replace (String.length a + String.length b - String.length a)%nat
    with (String.length b) by lia.
  rewrite string_drop_app, string_take_app.
  destruct (Nat.leb_spec (String.length a) (String.length a + String.length b));
    [|lia].
  destruct (Nat.leb_spec (String.length a + String.length b)
              (String.length a + (String.length b + String.length c)));
    [reflexivity | lia].
Qed.

Lemma slice_string_in_bounds (s : string) (lo hi : nat) :
  (lo ≤ hi)%nat → (hi ≤ String.length s)%nat → is_Ok (slice_string s lo hi).
Proof.
  intros Hlo Hhi. unfold slice_string.
  destruct (Nat.leb_spec lo hi); [|lia].
  destruct (Nat.leb_spec hi (String.length s)); [|lia].
  eexists; reflexivity.
Qed.

Lemma slice_string_out_of_bounds (s : string) (lo hi : nat) :
  (String.length s < hi)%nat → slice_string s lo hi = Panic "slice bounds out of range".
Proof.
  intros Hhi. unfold slice_string.
  destruct (Nat.leb_spec hi (String.length s)); [lia|].
  now rewrite andb_false_r.
Qed.

(** ** Data: bytes to bits and back *)

(** Each byte gives eight binary digits, which read back as the byte. *)
Lemma byte_bits_spec (b : byte) :
  String.length (byte_bits b) = 8%nat
  ∧ byte_of_Z (uint8 (fst (ParseUint (byte_bits b) 2 8))) = b.
Proof. destruct b; vm_compute; split; reflexivity. Qed.

Lemma fold_append_acc {A : Type} (f : A → string) (l : list A) (acc : string) :
  fold_left (λ bits x, bits +:+ f x) l acc
  = acc +:+ fold_left (λ bits x, bits +:+ f x) l EmptyString.
Proof.
  revert acc. induction l as [|x l IH]; intros acc; cbn [fold_left].
  - now rewrite string_app_nil_r.
  - rewrite IH, (IH (EmptyString +:+ f x)).
    now rewrite string_app_nil_l, string_app_assoc.
Qed.

Lemma Bits_cons (b : byte) (bs : list byte) :
  parse.Bits (parse.NewDataFromBytes (b :: bs))
  = byte_bits b +:+ parse.Bits (parse.NewDataFromBytes bs).
Proof.
  unfold parse.NewDataFromBytes, byte_bits. cbn [parse.Bits fold_left].
  now rewrite fold_append_acc.
Qed.

Lemma Bits_length (bs : list byte) :
  String.length (parse.Bits (parse.NewDataFromBytes bs)) = (8 * length bs)%nat.
Proof.
  induction bs as [|b bs IH]; [reflexivity|].
  rewrite Bits_cons, string_length_app, IH.
  destruct (byte_bits_spec b) as [-> _]. simpl. lia.
Qed.

(** The loop of [NewDataFromBits], one turn unfolded. *)
Lemma NewDataFromBits_loop_step (bits : string) (idx : nat) (bytes : list byte) :
  parse.NewDataFromBits_loop bits idx bytes =
  if (idx <? String.length bits)%nat then
    chunk ←! slice_string bits idx (idx + 8);
    bytes' ←! set_index bytes (Nat.shiftr idx 3)
                (byte_of_Z (uint8 (fst (ParseUint chunk 2 8))));
    parse.NewDataFromBits_loop bits (idx + 8) bytes'
  else Ok bytes.
Proof.
  rewrite parse.NewDataFromBits_loop_equation_1.
  destruct (lt_dec idx (String.length bits)) as [Hlt|Hge].
  - rewrite parse.NewDataFromBits_loop_clause_1_equation_1.
    destruct (Nat.ltb_spec idx (String.length bits)); [|lia].
    destruct (slice_string bits idx (idx + 8)) as [chunk|msg]; cbn [bind].
    + rewrite parse.NewDataFromBits_loop_clause_1_clause_2_equation_1.
      destruct (set_index bytes _ _) as [bytes'|msg]; cbn [bind].
      * now rewrite parse.NewDataFromBits_loop_clause_1_clause_2_clause_2_equation_1.
      * now rewrite parse.NewDataFromBits_loop_clause_1_clause_2_clause_2_equation_2.
    + now rewrite parse.NewDataFromBits_loop_clause_1_clause_2_equation_2.
  - rewrite parse.NewDataFromBits_loop_clause_1_equation_2.
    destruct (Nat.ltb_spec idx (String.length bits)); [lia | reflexivity].
Qed.

Lemma shiftr_3_mul_8 (k : nat) : Nat.shiftr (8 * k) 3 = k.
Proof.
  rewrite Nat.shiftr_div_pow2. change (2 ^ 3)%nat with 8%nat.
  rewrite Nat.mul_comm. now apply Nat.div_mul.
Qed.

(** Invariant of the loop on the bits of a byte sequence: with the bytes
    [done] already stored and the bits of [rest] ahead, it stores [rest]. *)
Lemma NewDataFromBits_loop_bytes (rest done : list byte) (pre : string) (idx : nat) :
  String.length pre = idx →
  idx = (8 * length done)%nat →
  parse.NewDataFromBits_loop
    (pre +:+ parse.Bits (parse.NewDataFromBytes rest))
    idx (done ++ replicate (length rest) x00)
  = Ok (done ++ rest).
Proof.
  revert done pre idx.
  induction rest as [|b rest IH]; intros done pre idx Hpre Hidx.
  - rewrite NewDataFromBits_loop_step, string_length_app, Bits_length, Hpre.
    change (length (@nil byte)) with 0%nat.
    destruct (Nat.ltb_spec idx (idx + 8 * 0)); [lia | reflexivity].
  - rewrite NewDataFromBits_loop_step, string_length_app, Bits_length, Hpre.
    change (length (b :: rest)) with (S (length rest)).
    destruct (Nat.ltb_spec idx (idx + 8 * S (length rest))); [|lia].
    destruct (byte_bits_spec b) as [Hlen Hval].
    rewrite Bits_cons.
    rewrite (slice_string_middle pre (byte_bits b)); [|lia|lia].
    cbn [bind]. rewrite Hval, Hidx, shiftr_3_mul_8.
    unfold set_index. rewrite length_app.
    change (replicate (S (length rest)) x00)
      with (x00 :: replicate (length rest) x00).
    change (length (x00 :: replicate (length rest) x00))
      with (S (length (replicate (length rest) x00))).
    destruct (Nat.ltb_spec (length done)
                (length done + S (length (replicate (length rest) x00))));
      [|lia].
    cbn [bind].
    replace (<[length done:=b]> (done ++ x00 :: replicate (length rest) x00))
      with ((done ++ [b]) ++ replicate (length rest) x00).
    2:{ rewrite <- (Nat.add_0_r (length done)) at 1.
        rewrite insert_app_r. cbn. now rewrite <- app_assoc. }
    rewrite <- string_app_assoc.
    rewrite (IH (done ++ [b])).
    + now rewrite <- app_assoc.
    + rewrite string_length_app, Hpre, Hlen. lia.
    + rewrite length_app. cbn [length]. lia.
Qed.

Lemma shiftr_3_div (n : nat) : Nat.shiftr n 3 = (n / 8)%nat.
Proof. rewrite Nat.shiftr_div_pow2. reflexivity. Qed.

(** What the loop of [NewDataFromBits] does on any string: it stores one
    byte per whole group of eight characters, and panics on a shorter last
    group. *)
Lemma NewDataFromBits_loop_outcome (bits : string) (q idx : nat) (bytes : list byte) :
  (idx ≤ String.length bits)%nat →
  ((String.length bits - idx) / 8 = q)%nat →
  length bytes = Nat.shiftr (String.length bits + 7) 3 →
  if ((String.length bits - idx) mod 8 =? 0)%nat
  then ∃ bytes', parse.NewDataFromBits_loop bits idx bytes = Ok bytes'
                 ∧ length bytes' = length bytes
  else parse.NewDataFromBits_loop bits idx bytes = Panic "slice bounds out of range".
Proof.
  revert idx bytes. induction q as [|q IH]; intros idx bytes Hidx Hq Hlen.
  - apply Nat.div_small_iff in Hq; [|lia].
    rewrite (Nat.mod_small _ _ Hq), NewDataFromBits_loop_step.
    destruct (Nat.eqb_spec (String.length bits - idx) 0) as [H0|H0].
    + destruct (Nat.ltb_spec idx (String.length bits)); [lia|]. eauto.
    + destruct (Nat.ltb_spec idx (String.length bits)); [|lia].
      rewrite slice_string_out_of_bounds by lia. reflexivity.
  - assert (Hge : (idx + 8 ≤ String.length bits)%nat).
    { destruct (le_lt_dec (idx + 8) (String.length bits)) as [|Hlt]; [assumption|].
      rewrite Nat.div_small in Hq by lia. discriminate. }
    rewrite NewDataFromBits_loop_step.
    destruct (Nat.ltb_spec idx (String.length bits)); [|lia].
    destruct (slice_string_in_bounds bits idx (idx + 8)) as [chunk ->]; [lia|lia|].
    cbn [bind]. unfold set_index.
    assert (Hslot : (Nat.shiftr idx 3 < length bytes)%nat).
    { rewrite Hlen, !shiftr_3_div.
      apply Nat.lt_le_trans with ((idx + 1 * 8) / 8)%nat.
      - rewrite Nat.div_add by lia. lia.
      - apply Nat.Div0.div_le_mono. lia. }
    destruct (Nat.ltb_spec (Nat.shiftr idx 3) (length bytes)); [|lia].
    cbn [bind].
    replace ((String.length bits - idx) mod 8)%nat
      with ((String.length bits - (idx + 8)) mod 8)%nat.
    2:{ replace (String.length bits - idx)%nat
          with (String.length bits - (idx + 8) + 1 * 8)%nat by lia.
        now rewrite Nat.Div0.mod_add. }
    specialize (IH (idx + 8)%nat
                  (<[Nat.shiftr idx 3:=byte_of_Z (uint8 (ParseUint chunk 2 8).1)]> bytes)).
    rewrite length_insert in IH. apply IH; [lia| |assumption].
    replace (String.length bits - idx)%nat
      with (String.length bits - (idx + 8) + 1 * 8)%nat in Hq by lia.
    rewrite Nat.div_add in Hq by lia. lia.
Qed.

(** [NewDataFromBits] returns exactly on the strings whose length is a
    multiple of eight, whatever their characters. *)
Lemma NewDataFromBits_outcome (data : string) :
  if (String.length data mod 8 =? 0)%nat
  then ∃ bytes, parse.NewDataFromBits data = Ok {| parse.Bits := data; parse.Bytes := bytes |}
                ∧ length bytes = (String.length data / 8)%nat
  else parse.NewDataFromBits data = Panic "slice bounds out of range".
Proof.
  pose proof (NewDataFromBits_loop_outcome data (String.length data / 8) 0
                (replicate (Nat.shiftr (String.length data + 7) 3) x00)) as H.
  rewrite Nat.sub_0_r, length_replicate in H.
  specialize (H ltac:(lia) eq_refl eq_refl).
  unfold parse.NewDataFromBits.
  destruct (Nat.eqb_spec (String.length data mod 8) 0) as [Hmod|Hmod].
  - destruct H as (bytes & -> & Hlen). cbn [bind]. exists bytes. split; [reflexivity|].
    rewrite Hlen, shiftr_3_div.
    pose proof (Nat.div_mod_eq (String.length data) 8) as Hd. rewrite Hmod in Hd.
    rewrite Hd at 1.
    replace (8 * (String.length data / 8) + 0 + 7)%nat
      with (7 + (String.length data / 8) * 8)%nat by lia.
    rewrite Nat.div_add by lia. reflexivity.
  - now rewrite H.
Qed.

(** C3. For every byte sequence [bs], the bits [NewDataFromBytes] derives
    from it are eight per byte (96 for the twelve bytes of an SCM packet),
    and [NewDataFromBits] on those bits returns, with [bs] itself as its
    bytes. *)
Theorem Data_bytes_bits_roundtrip (bs : list byte) :
  String.length (parse.Bits (parse.NewDataFromBytes bs)) = (8 * length bs)%nat
  ∧ parse.NewDataFromBits (parse.Bits (parse.NewDataFromBytes bs))
    = Ok {| parse.Bits := parse.Bits (parse.NewDataFromBytes bs);
            parse.Bytes := bs |}.
Proof.
  split; [apply Bits_length|].
  unfold parse.NewDataFromBits.
  rewrite Bits_length, shiftr_3_div.
  replace ((8 * length bs + 7) / 8)%nat with (length bs).
  2:{ replace (8 * length bs + 7)%nat with (7 + length bs * 8)%nat by lia.
      rewrite Nat.div_add by lia. reflexivity. }
  pose proof (NewDataFromBits_loop_bytes bs [] EmptyString 0 eq_refl eq_refl) as H.
  rewrite string_app_nil_l in H. cbn [app] in H. now rewrite H.
Qed.

(** C4, at the failing input: on a bit string of one character the loop
    takes the slice [0:8] of it, which is out of bounds. *)
Theorem NewDataFromBits_partial_byte_panics :
  parse.NewDataFromBits "1" = Panic "slice bounds out of range".
Proof. exact (NewDataFromBits_outcome "1"). Qed.

(** ** Binary digits *)

Lemma bin_value_app (a b : string) (n : Z) :
  bin_value (a +:+ b) n = bin_value b (bin_value a n).
Proof.
  revert n. induction a as [|c a IH]; intros n; [reflexivity|].
  rewrite string_app_cons. cbn [bin_value]. apply IH.
Qed.

Lemma bin_value_shift (s : string) (n : Z) :
  bin_value s n = n * 2 ^ Z.of_nat (String.length s) + bin_value s 0.
Proof.
  revert n. induction s as [|c s IH]; intros n.
  - cbn. lia.
  - cbn [bin_value String.length]. rewrite IH, (IH (2 * 0 + _)).
    rewrite Nat2Z.inj_succ, Z.pow_succ_r by lia. lia.
Qed.

Lemma bin_value_range (s : string) (n : Z) :
  0 ≤ n → n ≤ bin_value s n.
Proof.
  revert n. induction s as [|c s IH]; intros n Hn; cbn [bin_value]; [lia|].
  etransitivity; [|apply IH]; destruct (Ascii.eqb c "1"); lia.
Qed.

(** On binary digits [ParseUint] finds no error as long as the number fits. *)
Lemma ParseUint_digits_binary (s : string) (maxVal n : Z) :
  is_binary s = true → 0 ≤ n → bin_value s n ≤ maxVal → maxVal < 2 ^ 63 →
  ParseUint_digits s 2 maxVal (2 ^ 63) n = (bin_value s n, None).
Proof.
  revert n. induction s as [|c s IH]; intros n Hbin Hn Hfit Hmax; [reflexivity|].
  cbn [is_binary] in Hbin. apply andb_true_iff in Hbin as [Hc Hs].
  cbn [bin_value] in Hfit.
  assert (Hd : ∃ d, digit_val c = Some d
                    ∧ d = (if Ascii.eqb c "1" then 1 else 0) ∧ 0 ≤ d ≤ 1).
  { apply orb_true_iff in Hc as [Hc|Hc]; apply Ascii.eqb_eq in Hc; subst c;
      eexists; (split; [reflexivity|]); cbn; lia. }
  destruct Hd as (d & Hdv & Hdc & Hdr).
  pose proof (bin_value_range s (2 * n + d) ltac:(lia)) as Hle.
  rewrite <- Hdc in Hfit.
  cbn [ParseUint_digits bin_value]. rewrite Hdv, <- Hdc.
  destruct (Z.leb_spec 2 d); [lia|].
  destruct (Z.leb_spec (2 ^ 63) n); [lia|].
  cbv zeta. unfold uint64. rewrite Z.mod_small by lia.
  destruct (Z.ltb_spec (n * 2 + d) (n * 2)); [lia|].
  destruct (Z.ltb_spec maxVal (n * 2 + d)); [lia|].
  cbn [orb]. replace (n * 2 + d) with (2 * n + d) by lia.
  apply IH; [assumption|lia|assumption|assumption].
Qed.

Lemma byte_bits_binary (b : byte) :
  String.length (byte_bits b) = 8%nat
  ∧ is_binary (byte_bits b) = true
  ∧ bin_value (byte_bits b) 0 = Z_of_byte b.
Proof. destruct b; vm_compute; repeat split; reflexivity. Qed.

Lemma Z_of_byte_range (b : byte) : 0 ≤ Z_of_byte b < 256.
Proof.
  unfold Z_of_byte. pose proof (Byte.to_N_bounded b). lia.
Qed.

Lemma byte_of_Z_of_byte (b : byte) : byte_of_Z (Z_of_byte b) = b.
Proof.
  unfold byte_of_Z, uint8, Z_of_byte.
  pose proof (Byte.to_N_bounded b).
  rewrite Z.mod_small by lia. rewrite N2Z.id, Byte.of_to_N. reflexivity.
Qed.

Lemma Bits_app (l1 l2 : list byte) :
  parse.Bits (parse.NewDataFromBytes (l1 ++ l2))
  = parse.Bits (parse.NewDataFromBytes l1) +:+ parse.Bits (parse.NewDataFromBytes l2).
Proof.
  induction l1 as [|b l1 IH]; [reflexivity|].
  rewrite <- app_comm_cons, !Bits_cons, IH. now rewrite string_app_assoc.
Qed.

(** ** NewSCM on the data of a twelve-byte packet *)

Lemma slice_string_ok (s : string) (lo hi : nat) :
  (lo <=? hi)%nat && (hi <=? String.length s)%nat = true →
  slice_string s lo hi = Ok (string_take (hi - lo) (string_drop lo s)).
Proof. intros H. unfold slice_string. now rewrite H. Qed.

(** With 96 bits at hand every slice of [NewSCM] is in bounds. *)
Lemma NewSCM_returns (data : parse.Data) :
  String.length (parse.Bits data) = 96%nat →
  ∃ m, scm.NewSCM data = Ok m
       ∧ scm.ChecksumVal m
         = uint16 (fst (ParseUint (string_take 16 (string_drop 80 (parse.Bits data))) 2 16)).
Proof.
  intros Hlen. unfold scm.NewSCM.
  rewrite !slice_string_ok by (rewrite Hlen; reflexivity).
  cbn [bind]. eexists. split; reflexivity.
Qed.

Lemma ParseUint_16_binary (s : string) :
  s ≠ EmptyString → is_binary s = true → bin_value s 0 < 2 ^ 16 →
  ParseUint s 2 16 = (bin_value s 0, None).
Proof.
  intros Hne Hbin Hfit. destruct s as [|c s]; [congruence|].
  unfold ParseUint.
  change (negb ((2 <=? 2) && (2 <=? 36))) with false.
  change ((16 <? 0) || (64 <? 16)) with false.
  cbv iota zeta.
  change (if 16 =? 0 then 64 else 16) with 16.
  change ((2 ^ 64 - 1) / 2 + 1) with (2 ^ 63).
  apply ParseUint_digits_binary; [assumption|lia|lia|reflexivity].
Qed.

Lemma two_bytes_value (hi lo : byte) :
  let s := byte_bits hi +:+ byte_bits lo in
  s ≠ EmptyString ∧ String.length s = 16%nat ∧ is_binary s = true
  ∧ bin_value s 0 = 256 * Z_of_byte hi + Z_of_byte lo.
Proof.
  destruct (byte_bits_binary hi) as (Hl1 & Hb1 & Hv1).
  destruct (byte_bits_binary lo) as (Hl2 & Hb2 & Hv2).
  cbv zeta. repeat split.
  - intros H. apply (f_equal String.length) in H.
    rewrite string_length_app, Hl1, Hl2 in H. discriminate.
  - now rewrite string_length_app, Hl1, Hl2.
  - clear Hl1 Hv1 Hl2 Hv2. induction (byte_bits hi) as [|c s IH]; [exact Hb2|].
    rewrite string_app_cons. cbn [is_binary] in *.
    apply andb_true_iff in Hb1 as [-> Hs]. now rewrite IH.
  - rewrite bin_value_app, bin_value_shift, Hv1, Hv2, Hl2.
    change (2 ^ Z.of_nat 8) with 256. lia.
Qed.

(** [NewSCM] on a twelve-byte packet: it returns, and its checksum field is
    the number bits 80..96 denote, which is bytes 10 and 11 of the packet. *)
Lemma NewSCM_of_packet (pkt : list byte) :
  length pkt = 12%nat →
  ∃ m, scm.NewSCM (parse.NewDataFromBytes pkt) = Ok m
       ∧ scm.ChecksumVal m
         = bin_value (string_take 16 (string_drop 80
                        (parse.Bits (parse.NewDataFromBytes pkt)))) 0
       ∧ scm.Checksum m = drop 10 pkt
       ∧ scm.ChecksumVal m
         = 256 * Z_of_byte (nth 10 pkt x00) + Z_of_byte (nth 11 pkt x00).
Proof.
  intros Hlen.
  destruct (NewSCM_returns (parse.NewDataFromBytes pkt)) as (m & Hm & Hsum).
  { rewrite Bits_length, Hlen. reflexivity. }
  exists m. split; [exact Hm|].
  destruct pkt as [|b0 [|b1 [|b2 [|b3 [|b4 [|b5 [|b6 [|b7 [|b8 [|b9
    [|hi [|lo [|? ?]]]]]]]]]]]]]; try discriminate Hlen.
  clear Hlen Hm.
  change (drop 10 [b0; b1; b2; b3; b4; b5; b6; b7; b8; b9; hi; lo]) with [hi; lo].
  change (nth 10 [b0; b1; b2; b3; b4; b5; b6; b7; b8; b9; hi; lo] x00) with hi.
  change (nth 11 [b0; b1; b2; b3; b4; b5; b6; b7; b8; b9; hi; lo] x00) with lo.
  change [b0; b1; b2; b3; b4; b5; b6; b7; b8; b9; hi; lo]
    with ([b0; b1; b2; b3; b4; b5; b6; b7; b8; b9] ++ [hi; lo]) in Hsum |- *.
  set (pre := [b0; b1; b2; b3; b4; b5; b6; b7; b8; b9]) in *.
  rewrite Bits_app in Hsum |- *.
  assert (H80 : String.length (parse.Bits (parse.NewDataFromBytes pre)) = 80%nat).
  { rewrite Bits_length. reflexivity. }
  rewrite <- H80 in Hsum |- *. rewrite string_drop_app in Hsum |- *.
  rewrite !Bits_cons in Hsum |- *.
  change (parse.Bits (parse.NewDataFromBytes [])) with EmptyString in Hsum |- *.
  rewrite string_app_nil_r in Hsum |- *.
  destruct (two_bytes_value hi lo) as (Hne & Hl & Hbin & Hval).
  assert (Htake : string_take 16 (byte_bits hi +:+ byte_bits lo)
                  = byte_bits hi +:+ byte_bits lo).
  { rewrite <- Hl. rewrite <- (string_app_nil_r (byte_bits hi +:+ byte_bits lo)) at 2.
    apply string_take_app. }
  rewrite Htake in Hsum |- *.
  pose proof (Z_of_byte_range hi). pose proof (Z_of_byte_range lo).
  rewrite ParseUint_16_binary in Hsum by (try assumption; lia).
  cbn [fst] in Hsum. unfold uint16 in Hsum. rewrite Z.mod_small in Hsum by lia.
  split; [exact Hsum|]. split; [|now rewrite Hsum].
  unfold scm.Checksum. rewrite Hsum, Hval.
  rewrite Z.shiftr_div_pow2 by lia. change (2 ^ 8) with 256.
  replace ((256 * Z_of_byte hi + Z_of_byte lo) / 256) with (Z_of_byte hi)
    by (apply Z.div_unique with (Z_of_byte lo); lia).
  rewrite byte_of_Z_of_byte. f_equal. f_equal.
  unfold byte_of_Z, uint8.
  rewrite <- Zmod_mod.
  replace ((256 * Z_of_byte hi + Z_of_byte lo) mod 2 ^ 8) with (Z_of_byte lo).
  - apply byte_of_Z_of_byte.
  - change (2 ^ 8) with 256.
    apply Z.mod_unique with (Z_of_byte hi); lia.
Qed.

(** ** First occurrences *)

Lemma elem_of_dedup_from (x : list byte) (prev pkts : list (list byte)) :
  x ∈ dedup_from prev pkts ↔ x ∈ pkts ∧ x ∉ prev.
Proof.
  revert prev. induction pkts as [|pkt rest IH]; intros prev; cbn [dedup_from].
  - set_solver.
  - destruct (decide (pkt ∈ prev)) as [Hin|Hout].
    + rewrite IH. set_solver.
    + rewrite elem_of_cons, IH.
      destruct (decide (x = pkt)) as [->|Hne]; set_solver.
Qed.


Lemma dedup_from_ext (prev1 prev2 pkts : list (list byte)) :
  (∀ x, x ∈ pkts → (x ∈ prev1 ↔ x ∈ prev2)) →
  dedup_from prev1 pkts = dedup_from prev2 pkts.
Proof.
  revert prev1 prev2.
  induction pkts as [|pkt rest IH]; intros prev1 prev2 Hext; [reflexivity|].
  cbn [dedup_from].
  pose proof (Hext pkt ltac:(set_solver)) as Hpkt.
  destruct (decide (pkt ∈ prev1)), (decide (pkt ∈ prev2)); try tauto.
  - apply IH. intros x Hx. apply Hext. set_solver.
  - f_equal. apply IH. intros x Hx.
    rewrite !elem_of_cons, (Hext x ltac:(set_solver)). tauto.
Qed.

Lemma dedup_from_filter (g : list byte → bool) (prev pkts : list (list byte)) :
  dedup_from prev (filter g pkts) = filter g (dedup_from prev pkts).
Proof.
  revert prev. induction pkts as [|pkt rest IH]; intros prev; [reflexivity|].
  rewrite filter_cons. cbn [dedup_from].
  destruct (decide (g pkt)) as [Hg|Hg].
  - cbn [dedup_from]. destruct (decide (pkt ∈ prev)); [apply IH|].
    rewrite filter_cons_True by assumption. f_equal. apply IH.
  - destruct (decide (pkt ∈ prev)); [apply IH|].
    rewrite filter_cons_False by assumption. rewrite <- IH.
    apply dedup_from_ext. intros x Hx.
    apply list_elem_of_filter in Hx as [Hgx _].
    rewrite elem_of_cons. split; [tauto|]. intros [->|]; [contradiction|assumption].
Qed.

(** ** What Parse returns *)

Lemma string_of_list_byte_inj (a b : list byte) :
  string_of_list_byte a = string_of_list_byte b → a = b.
Proof.
  intros H. apply (f_equal list_byte_of_string) in H.
  now rewrite !list_byte_of_string_of_list_byte in H.
Qed.

Lemma accepted_emits (p : scm.Parser) (pkt : list byte) (m : scm.SCM) :
  accepted p pkt = Some m ↔ emits p pkt m.
Proof.
  unfold accepted, emits, passes_length_and_checksum.
  destruct (Nat.eqb_spec (length pkt) 12) as [Hlen|Hlen]; cbn [andb].
  2:{ split; [discriminate | tauto]. }
  destruct (Z.eqb_spec (crc.Checksum (scm.Parser_CRC p) (take 10 (drop 2 pkt))) 0)
    as [Hsum|Hsum].
  2:{ split; [discriminate | tauto]. }
  destruct (scm.NewSCM (parse.NewDataFromBytes pkt)) as [m'|msg].
  2:{ split; [discriminate | intros (_ & _ & ? & _); discriminate]. }
  destruct (Z.eqb_spec (scm.ID m') 0) as [Hid|Hid].
  - split; [discriminate|]. intros (_ & _ & [= ->] & ?). contradiction.
  - split.
    + intros [= ->]. tauto.
    + intros (_ & _ & [= ->] & _). reflexivity.
Qed.

Lemma accepted_gates (p : scm.Parser) (pkt : list byte) :
  passes_length_and_checksum p pkt = false → accepted p pkt = None.
Proof. intros H. unfold accepted. now rewrite H. Qed.

(** One turn of the loop: a packet seen before changes nothing; a new one
    is recorded, and adds its message if it passes the gates. *)
Lemma Parse_body_spec (p : scm.Parser) (seen : gmap string bool)
    (msgs : list scm.SCM) (pkt : list byte) :
  scm.Parse_body p (seen, msgs) pkt
  = Ok (if default false (seen !! string_of_list_byte pkt) then (seen, msgs)
        else (<[string_of_list_byte pkt:=true]> seen,
              msgs ++ option_list (accepted p pkt))).
Proof.
  unfold scm.Parse_body. cbn [fst snd].
  destruct (default false (seen !! string_of_list_byte pkt)); [reflexivity|].
  change (parse.Bytes (parse.NewDataFromBytes pkt)) with pkt.
  unfold accepted, passes_length_and_checksum.
  destruct (Nat.eqb_spec (length pkt) 12) as [Hlen|Hlen]; cbn [negb andb].
  2:{ cbn. now rewrite app_nil_r. }
  unfold slice_bytes. rewrite Hlen. cbn [Nat.leb andb Nat.sub bind].
  destruct (crc.Checksum (scm.Parser_CRC p) (take 10 (drop 2 pkt)) =? 0);
    cbn [negb].
  2:{ cbn. now rewrite app_nil_r. }
  destruct (NewSCM_of_packet pkt Hlen) as (m & -> & _). cbn [bind].
  destruct (scm.ID m =? 0); cbn; [now rewrite app_nil_r | reflexivity].
Qed.

Lemma omap_cons_option {A B : Type} (f : A → option B) (x : A) (l : list A) :
  omap f (x :: l) = option_list (f x) ++ omap f l.
Proof. cbn. destruct (f x); reflexivity. Qed.

Lemma Parse_range_spec (p : scm.Parser) (pkts : list (list byte)) :
  ∀ (seen : gmap string bool) (msgs : list scm.SCM) (prev : list (list byte)),
    (∀ pkt, default false (seen !! string_of_list_byte pkt) = true ↔ pkt ∈ prev) →
    ∃ seen', scm.Parse_range p pkts (seen, msgs)
             = Ok (seen', msgs ++ omap (accepted p) (dedup_from prev pkts)).
Proof.
  induction pkts as [|pkt rest IH]; intros seen msgs prev Hseen.
  - exists seen. cbn. now rewrite app_nil_r.
  - cbn [scm.Parse_range dedup_from]. rewrite Parse_body_spec. cbn [bind].
    destruct (default false (seen !! string_of_list_byte pkt)) eqn:Hpkt.
    + apply Hseen in Hpkt. destruct (decide (pkt ∈ prev)); [|contradiction].
      now apply IH.
    + destruct (decide (pkt ∈ prev)) as [Hin|Hout].
      { apply Hseen in Hin. congruence. }
      destruct (IH (<[string_of_list_byte pkt:=true]> seen)
                  (msgs ++ option_list (accepted p pkt)) (pkt :: prev))
        as [seen' ->].
      * intros pkt'. rewrite elem_of_cons.
        destruct (decide (pkt' = pkt)) as [->|Hne].
        -- rewrite lookup_insert_eq. cbn. tauto.
        -- rewrite lookup_insert_ne
             by (intros Heq; apply string_of_list_byte_inj in Heq; congruence).
           rewrite Hseen. tauto.
      * exists seen'. now rewrite <- app_assoc, omap_cons_option.
Qed.

(** [Parse] returns, in detection order, the message of every packet that
    passes the gates, once, at the place of its first occurrence. *)
Lemma Parse_spec (p : scm.Parser) (indices : list Z) :
  scm.Parse p indices
  = Ok (omap (accepted p)
          (first_occurrences (decode.Slice (scm.Parser_Decoder p) indices))).
Proof.
  unfold scm.Parse, first_occurrences.
  destruct (Parse_range_spec p (decode.Slice (scm.Parser_Decoder p) indices)
              ∅ [] []) as [seen' ->]; [|reflexivity].
  intros pkt. rewrite lookup_empty. cbn. set_solver.
Qed.

Lemma omap_accepted_filter (p : scm.Parser) (pkts : list (list byte)) :
  omap (accepted p) (filter (passes_length_and_checksum p) pkts)
  = omap (accepted p) pkts.
Proof.
  induction pkts as [|pkt rest IH]; [reflexivity|].
  rewrite filter_cons.
  destruct (decide (passes_length_and_checksum p pkt)) as [Hg|Hg].
  - now rewrite !omap_cons_option, IH.
  - rewrite omap_cons_option, IH, accepted_gates; [reflexivity|].
    destruct (passes_length_and_checksum p pkt); [|reflexivity].
    exfalso. apply Hg. exact I.
Qed.

Lemma elem_of_Parse (p : scm.Parser) (pkts : list (list byte)) (m : scm.SCM) :
  m ∈ omap (accepted p) (first_occurrences pkts)
  ↔ ∃ pkt, pkt ∈ pkts ∧ emits p pkt m.
Proof.
  rewrite list_elem_of_omap. unfold first_occurrences.
  split; intros (pkt & Hin & Hm); exists pkt.
  - apply elem_of_dedup_from in Hin as [Hin _]. now rewrite <- accepted_emits.
  - rewrite elem_of_dedup_from, accepted_emits. set_solver.
Qed.

(** C1. [Parse] always returns a message sequence (it has no error result
    and does not panic); every message in it was decoded from a sliced
    packet of exactly 12 bytes whose bytes 2 to 12 have checksum zero; and
    the sequence is the one [Parse] returns when the packets of another
    length or with a nonzero checksum are taken out of the slicer's output. *)
Theorem Parse_length_and_checksum_gates (p : scm.Parser) (indices : list Z) :
  ∃ msgs,
    scm.Parse p indices = Ok msgs
    ∧ (∀ m, m ∈ msgs →
         ∃ pkt, pkt ∈ decode.Slice (scm.Parser_Decoder p) indices
                ∧ length pkt = 12%nat
                ∧ crc.Checksum (scm.Parser_CRC p) (take 10 (drop 2 pkt)) = 0
                ∧ scm.NewSCM (parse.NewDataFromBytes pkt) = Ok m)
    ∧ scm.Parse
        (with_packets p
           (filter (passes_length_and_checksum p)
              (decode.Slice (scm.Parser_Decoder p) indices)))
        indices
      = Ok msgs.
Proof.
  rewrite !Parse_spec. eexists. split; [reflexivity|]. split.
  - intros m Hm. apply elem_of_Parse in Hm as (pkt & Hin & Hlen & Hsum & Hm & _).
    eauto.
  - cbn [with_packets scm.Parser_Decoder decode.Slice].
    change (accepted (with_packets p _)) with (accepted p).
    unfold first_occurrences. f_equal.
    now rewrite dedup_from_filter, omap_accepted_filter.
Qed.

(** C1 at work: of a valid packet and its corrupted copy, only the valid
    one is behind a returned message. *)
Lemma Parse_length_and_checksum_gates_witness :
  ∃ msgs,
    scm.Parse (bch_parser [valid_packet; corrupt_packet]) [0; 1] = Ok msgs
    ∧ sample_scm ∈ msgs
    ∧ ∃ pkt, pkt ∈ [valid_packet; corrupt_packet]
             ∧ length pkt = 12%nat
             ∧ crc.Checksum (crc.NewCRC "BCH" 0 0x6F63 0) (take 10 (drop 2 pkt)) = 0
             ∧ scm.NewSCM (parse.NewDataFromBytes pkt) = Ok sample_scm.
Proof.
  destruct (Parse_length_and_checksum_gates
              (bch_parser [valid_packet; corrupt_packet]) [0; 1])
    as (msgs & Hparse & Hfrom & _).
  assert (Hval : scm.Parse (bch_parser [valid_packet; corrupt_packet]) [0; 1]
                 = Ok [sample_scm]) by (vm_compute; reflexivity).
  exists msgs. split; [exact Hparse|].
  rewrite Hval in Hparse. injection Hparse as <-.
  split; [apply list_elem_of_singleton; reflexivity|].
  apply Hfrom. apply list_elem_of_singleton. reflexivity.
Defined.

(** C7. [Parse] always returns, and no message it returns has meter ID 0. *)
Theorem Parse_drops_zero_meter_id (p : scm.Parser) (indices : list Z) :
  ∃ msgs, scm.Parse p indices = Ok msgs ∧ Forall (λ m, scm.ID m ≠ 0) msgs.
Proof.
  rewrite Parse_spec. eexists. split; [reflexivity|].
  apply Forall_forall. intros m Hm.
  apply elem_of_Parse in Hm as (pkt & _ & _ & _ & _ & Hid). exact Hid.
Qed.

(** C10. A packet of 12 bytes has 96 bits, [NewSCM] returns on them, its
    checksum field is the number bits 80..96 denote, and [Checksum] gives it
    back as two bytes, high byte first: bytes 10 and 11 of the packet.
    [Parse] never panics, and each message it returns is [NewSCM] of such a
    packet of the slicer. *)
Theorem NewSCM_in_bounds_from_Parse (p : scm.Parser) (indices : list Z) :
  (∀ pkt, length pkt = 12%nat →
     String.length (parse.Bits (parse.NewDataFromBytes pkt)) = 96%nat
     ∧ ∃ m, scm.NewSCM (parse.NewDataFromBytes pkt) = Ok m
            ∧ scm.ChecksumVal m
              = bin_value (string_take 16 (string_drop 80
                             (parse.Bits (parse.NewDataFromBytes pkt)))) 0
            ∧ length (scm.Checksum m) = 2%nat
            ∧ scm.Checksum m = drop 10 pkt
            ∧ scm.ChecksumVal m
              = 256 * Z_of_byte (nth 0 (scm.Checksum m) x00)
                + Z_of_byte (nth 1 (scm.Checksum m) x00))
  ∧ ∃ msgs,
      scm.Parse p indices = Ok msgs
      ∧ ∀ m, m ∈ msgs →
          ∃ pkt, pkt ∈ decode.Slice (scm.Parser_Decoder p) indices
                 ∧ length pkt = 12%nat
                 ∧ scm.NewSCM (parse.NewDataFromBytes pkt) = Ok m.
Proof.
  split.
  - intros pkt Hlen. split; [rewrite Bits_length, Hlen; reflexivity|].
    destruct (NewSCM_of_packet pkt Hlen) as (m & Hm & Hval & Hsum & Hbe).
    exists m. repeat split; try assumption.
    rewrite Hsum, Hbe.
    destruct pkt as [|b0 [|b1 [|b2 [|b3 [|b4 [|b5 [|b6 [|b7 [|b8 [|b9
      [|hi [|lo [|? ?]]]]]]]]]]]]]; try discriminate Hlen.
    reflexivity.
  - rewrite Parse_spec. eexists. split; [reflexivity|].
    intros m Hm. apply elem_of_Parse in Hm as (pkt & Hin & Hlen & _ & Hm & _).
    eauto.
Qed.

(** C10 at work, on the sample packet. *)
Lemma NewSCM_in_bounds_from_Parse_witness :
  length valid_packet = 12%nat
  ∧ ∃ m, scm.NewSCM (parse.NewDataFromBytes valid_packet) = Ok m
         ∧ scm.Checksum m = [x81; x61].
Proof.
  split; [reflexivity|].
  destruct (NewSCM_in_bounds_from_Parse (bch_parser []) []) as [Hpkt _].
  destruct (Hpkt valid_packet eq_refl) as (_ & m & Hm & _ & _ & Hsum & _).
  exists m. split; [exact Hm | exact Hsum].
Defined.

(** ** Deduplication *)





(** A duplicated packet that passes the gates gives one message, and gives
    it again in the next call. *)
Example Parse_duplicate_valid_packet :
  scm.Parse (bch_parser [valid_packet; corrupt_packet; valid_packet; zero_packet]) [0; 1; 2; 3]
  = Ok [sample_scm].
Proof. vm_compute. reflexivity. Qed.

(** A packet shorter than twelve bytes stops at the length gate, without
    which [NewSCM] would slice past the end of its bits. *)
Example Parse_short_packet :
  scm.NewSCM (parse.NewDataFromBytes [xf9; x53; x29]) = Panic "slice bounds out of range"
  ∧ scm.Parse (bch_parser [[xf9; x53; x29]]) [0] = Ok [].
Proof. split; vm_compute; reflexivity. Qed.

(** Twelve zero bytes pass the length gate and the checksum gate, decode to
    meter ID 0, and are dropped. *)
Example Parse_zero_packet :
  passes_length_and_checksum (bch_parser [zero_packet]) zero_packet = true
  ∧ accepted (bch_parser []) valid_packet = Some sample_scm
  ∧ scm.Parse (bch_parser [zero_packet]) [0] = Ok [].
Proof. repeat split; vm_compute; reflexivity. Qed.

(** ** The parser registry *)

(** C6. [Register] panics on a nil constructor, whatever the name; on a
    name that is registered it panics too, and [NewParser] returns what the
    registered constructor builds, with a nil error; on a name that is not
    registered [Register] adds the mapping, and [NewParser] returns a nil
    parser with an error made from the unknown name. After a registration
    [NewParser] returns what the registered constructor builds. *)
Theorem Register_and_NewParser {P : Type} (name : string)
    (parserFn : parse.NewParserFunc P) (symbolLength decimation : Z)
    (parsers : gmap string (parse.NewParserFunc P)) :
  parse.Register name None parsers = Panic "parser: new parser func is nil"
  ∧ match parsers !! name with
    | Some registered =>
        parse.Register name (Some parserFn) parsers
        = Panic ("parser: parser already registered (" +:+ name +:+ ")")
        ∧ parse.NewParser name symbolLength decimation parsers
          = (Some (registered symbolLength decimation), None)
    | None =>
        parse.Register name (Some parserFn) parsers = Ok (<[name:=parserFn]> parsers)
        ∧ parse.NewParser name symbolLength decimation parsers
          = (None, Some (Errorf parse.invalid_message_type [ArgStr name]))
    end
  ∧ parse.NewParser name symbolLength decimation (<[name:=parserFn]> parsers)
    = (Some (parserFn symbolLength decimation), None).
Proof.
  split; [reflexivity|]. split.
  - unfold parse.Register, parse.NewParser.
    destruct (parsers !! name); split; reflexivity.
  - unfold parse.NewParser. now rewrite lookup_insert_eq.
Qed.

(** The registration of package [scm], and a duplicate of it. *)
Example Register_scm_twice :
  let fn : parse.NewParserFunc scm.Parser := λ symbolLength _, bch_parser [] in
  bind (parse.Register "scm" (Some fn) ∅) (parse.Register "scm" (Some fn))
    = Panic "parser: parser already registered (scm)"
  ∧ parse.NewParser "idm" 72 1 (<["scm":=fn]> ∅)
    = (None, Some (Errorf parse.invalid_message_type [ArgStr "idm"])).
Proof. repeat split. Qed.

(** ** The filter chain *)

Lemma Match_range_snoc {M S : Type} (fc : parse.FilterChain M S)
    (filter : parse.MessageFilter M S) (msg : M) (s : S) :
  parse.Match_range (fc ++ [filter]) msg s
  = let (accepted, s') := parse.Match_range fc msg s in
    if accepted then parse.Filter filter msg s' else (false, s').
Proof.
  revert s. induction fc as [|f fc IH]; intros s; cbn [app parse.Match_range].
  - destruct (parse.Filter filter msg s) as [[] s']; reflexivity.
  - destruct (parse.Filter f msg s) as [[] s']; cbn [negb]; [apply IH | reflexivity].
Qed.

Lemma Match_eq_range {M S : Type} (fc : parse.FilterChain M S) (msg : M) (s : S) :
  parse.Match fc msg s = parse.Match_range fc msg s.
Proof. destruct fc; reflexivity. Qed.

Lemma Match_range_rejects {M S : Type} (pre post : parse.FilterChain M S)
    (filter : parse.MessageFilter M S) (msg : M) (s s' : S) :
  parse.Match_range pre msg s = (true, s') →
  fst (parse.Filter filter msg s') = false →
  parse.Match_range (pre ++ filter :: post) msg s
  = (false, snd (parse.Filter filter msg s')).
Proof.
  revert s. induction pre as [|f pre IH]; intros s Hpre Hrej;
    cbn [app parse.Match_range] in *.
  - injection Hpre as <-. destruct (parse.Filter filter msg s) as [ok s1].
    cbn in Hrej. subst ok. reflexivity.
  - destruct (parse.Filter f msg s) as [[] s1]; cbn [negb] in *;
      [now apply IH | discriminate].
Qed.

(** C8. [Match] of the empty chain is true and evaluates nothing. [Match]
    of a chain to which a filter was added runs the chain as before and, if
    it accepted, the added filter after it on the state it left; if it
    rejected, the added filter is not evaluated. So the filters run in the
    order added up to the first that rejects: when the filters [pre] accept
    and [filter] then rejects, the result is false with the state [filter]
    left, whatever comes after it. On predicates without state the result
    is true exactly when every predicate accepts. *)
Theorem FilterChain_Match {M S : Type} (fc : parse.FilterChain M S)
    (accepts : list (M → bool)) (msg : M) (s : S) :
  parse.Match [] msg s = (true, s)
  ∧ (∀ filter,
       parse.Match (parse.Add fc filter) msg s
       = let (accepted, s') := parse.Match fc msg s in
         if accepted then parse.Filter filter msg s' else (false, s'))
  ∧ (∀ pre filter post s',
       parse.Match pre msg s = (true, s') →
       fst (parse.Filter filter msg s') = false →
       parse.Match (pre ++ filter :: post) msg s
       = (false, snd (parse.Filter filter msg s')))
  ∧ parse.Match (pure_filter <$> accepts) msg s
    = (forallb (λ accept, accept msg) accepts, s).
Proof.
  split; [reflexivity|]. split; [|split].
  - intros filter. unfold parse.Add.
    rewrite !Match_eq_range. apply Match_range_snoc.
  - intros pre filter post s' Hpre Hrej. rewrite Match_eq_range in *.
    now apply Match_range_rejects.
  - rewrite Match_eq_range.
    induction accepts as [|accept accepts IH]; [reflexivity|].
    cbn [fmap list_fmap parse.Match_range pure_filter parse.Filter forallb].
    destruct (accept msg); cbn [negb andb]; [exact IH | reflexivity].
Qed.

(** C8 at work: after a filter that accepts, a filter that rejects ends the
    run; the filter behind it is not evaluated (two evaluations counted). *)
Lemma FilterChain_Match_witness :
  parse.Match
    ([counting_filter (λ m, String.eqb (scm.MsgType m) "SCM")]
       ++ counting_filter (λ m, 0 <? scm.MeterID m)
       :: [counting_filter (λ m, String.eqb (scm.MsgType m) "SCM")])
    (scm.mkSCM 0 7 0 0 1 0) 0%nat
  = (false, 2%nat).
Proof.
  destruct (FilterChain_Match (S := nat) [] [] (scm.mkSCM 0 7 0 0 1 0) 0%nat)
    as (_ & _ & Hreject & _).
  exact (Hreject [counting_filter (λ m, String.eqb (scm.MsgType m) "SCM")]
           (counting_filter (λ m, 0 <? scm.MeterID m))
           [counting_filter (λ m, String.eqb (scm.MsgType m) "SCM")]
           1%nat eq_refl eq_refl).
Defined.

(** The chain {type is SCM, meter ID above 0} rejects a message with ID 0;
    a rejection by the first filter leaves the second unevaluated. *)
Example FilterChain_two_predicates :
  let is_scm := λ m : scm.SCM, String.eqb (scm.MsgType m) "SCM" in
  let has_id := λ m : scm.SCM, 0 <? scm.MeterID m in
  let zero_id := {| scm.ID := 0; scm.Type_ := 7; scm.TamperPhy := 0;
                    scm.TamperEnc := 0; scm.Consumption := 1; scm.ChecksumVal := 0 |} in
  parse.Match (parse.Add (parse.Add [] (counting_filter is_scm)) (counting_filter has_id))
    zero_id 0%nat = (false, 2%nat)
  ∧ parse.Match (parse.Add (parse.Add [] (counting_filter is_scm)) (counting_filter has_id))
      sample_scm 0%nat = (true, 2%nat)
  ∧ parse.Match (parse.Add (parse.Add [] (counting_filter has_id)) (counting_filter is_scm))
      zero_id 0%nat = (false, 1%nat).
Proof. repeat split. Qed.

(** ** LogMessage.Record and RSSI *)

Lemma digits2_pos_bound (m : positive) : Z.pos m < 2 ^ Z.pos (digits2_pos m).
Proof.
  induction m as [m IH|m IH|]; cbn [digits2_pos].
  - rewrite Pos2Z.inj_succ, Z.pow_succ_r by lia. lia.
  - rewrite Pos2Z.inj_succ, Z.pow_succ_r by lia. lia.
  - reflexivity.
Qed.

(** [IsInf(f, -1)] holds of negative infinity and of no other binary64
    number: none is below [-MaxFloat64]. *)
Lemma IsInf_negative (f : float) : IsInf f (-1) = true ↔ f = neg_infinity.
Proof.
  unfold IsInf. change (0 <=? -1) with false. change (-1 <=? 0) with true.
  cbn [andb orb]. rewrite ltb_spec.
  change (Prim2SF (- MaxFloat64)) with (S754_finite true 9007199254740991 971).
  split.
  - intros Hlt. apply Prim2SF_inj.
    change (Prim2SF neg_infinity) with (S754_infinity true).
    pose proof (Prim2SF_valid f) as Hvalid.
    destruct (Prim2SF f) as [s|s| |s m e]; try discriminate Hlt.
    + destruct s; [reflexivity | discriminate Hlt].
    + exfalso. destruct s; [|discriminate Hlt].
      unfold SFltb, SFcompare in Hlt.
      cbn [valid_binary] in Hvalid. unfold bounded, canonical_mantissa in Hvalid.
      apply andb_true_iff in Hvalid as [Hcanon Hemax].
      apply Z.eqb_eq in Hcanon. apply Z.leb_le in Hemax.
      destruct (e ?= 971) eqn:He; try discriminate Hlt.
      * apply Z.compare_eq_iff in He. subst e.
        destruct (Pos.compare_cont Eq m 9007199254740991) eqn:Hc;
          try discriminate Hlt.
        apply (proj1 (Pos.compare_gt_iff m 9007199254740991)) in Hc.
        pose proof (digits2_pos_bound m) as Hm.
        assert (Hd : Z.pos (digits2_pos m) ≤ 53).
        { revert Hcanon. unfold fexp, emin.
          change prec with 53. change emax with 1024. lia. }
        apply (Z.pow_le_mono_r 2) in Hd; [|lia].
        assert (Z.pos m < 2 ^ 53) by lia.
        change (2 ^ 53) with 9007199254740992 in *. lia.
      * apply Z.compare_gt_iff in He. revert Hemax.
        change prec with 53. change emax with 1024. lia.
  - intros ->. reflexivity.
Qed.

(** C9, at a message whose signal strength is negative infinity: [Record]
    formats it as it is, and only [Sanitize] puts the noise floor (a
    negative number of decibels) in its place. *)
Lemma LogMessage_Record_negative_infinity :
  parse.LogMessage_Record
    (parse.mkLogMessage sample_time 4096 1234 neg_infinity sample_scm)
  = ["2015-03-09T07:05:03.12-05:00"; "4096"; "1234"; "-Inf";
     "123456"; "7"; "0x1"; "0x0"; "12109"; "0x8161"]
  ∧ parse.LogMessage_Record
      (parse.mkLogMessage sample_time 4096 1234 (parse.Sanitize neg_infinity) sample_scm)
    = ["2015-03-09T07:05:03.12-05:00"; "4096"; "1234"; "-48.165";
       "123456"; "7"; "0x1"; "0x0"; "12109"; "0x8161"].
Proof. split; vm_compute; reflexivity. Qed.

(** C9, amended. [Record] gives, in this order, the timestamp in the
    RFC 3339 format with nanoseconds and zone, the byte offset, the length
    of the decoded region, the signal strength as stored with three
    decimals, and then the fields of the wrapped message's [Record]. It
    replaces nothing: negative infinity comes out as [-Inf]. The
    replacement is [Sanitize]'s, for the caller to apply before: it turns
    negative infinity into [QuantNoise8bit] (-48.1647993062, formatted
    [-48.165]), leaves any other value as it is, and so never gives
    negative infinity. *)
Theorem LogMessage_Record_fields {M : Type} `{parse.Message M}
    (msg : parse.LogMessage M) (rssi : parse.RSSI) :
  parse.LogMessage_Record msg
  = [time.Format (parse.Timestamp_Time (parse.Time_ msg)) RFC3339Nano;
     FormatInt (parse.Offset msg) 10;
     FormatInt (parse.Length msg) 10;
     FormatFloat (parse.RSSI_ msg) "f" 3 64]
    ++ parse.Record (parse.Message_ msg)
  ∧ FormatFloat neg_infinity "f" 3 64 = "-Inf"
  ∧ (rssi = neg_infinity ∧ parse.Sanitize rssi = parse.QuantNoise8bit
     ∨ rssi ≠ neg_infinity ∧ parse.Sanitize rssi = rssi)
  ∧ parse.Sanitize rssi ≠ neg_infinity
  ∧ FormatFloat parse.QuantNoise8bit "f" 3 64 = "-48.165".
Proof.
  split; [reflexivity|].
  split; [vm_compute; reflexivity|].
  assert (Hnoise : parse.QuantNoise8bit ≠ neg_infinity).
  { intros Heq. apply (f_equal Prim2SF) in Heq. vm_compute in Heq. discriminate. }
  unfold parse.Sanitize.
  destruct (IsInf rssi (-1)) eqn:Hinf.
  - apply IsInf_negative in Hinf.
    split; [left; now split|]. split; [exact Hnoise | vm_compute; reflexivity].
  - assert (Hne : rssi ≠ neg_infinity).
    { intros Heq. apply IsInf_negative in Heq. congruence. }
    split; [right; now split|]. split; [exact Hne | vm_compute; reflexivity].
Qed.

(** ** Formatting an SCM message *)

(** C5, at a message and two worlds: [String] reads files, prints, connects
    to the broker and publishes before it returns the text, and where the
    client key pair is missing the same call panics. *)
Lemma String_reaches_the_broker :
  scm.String_ sample_scm world_connected
  = ([scm.ReadFile "rootCA.pem";
      scm.LoadX509KeyPair "rtlsdr.certificate.crt" "rtlsdr.private.key";
      scm.Println "certificate";
      scm.Connect "ssl://data.iot.us-west-2.amazonaws.com:8883" "rtlsdr";
      scm.Publish "/rtlsdr" 0 false
        "{ID:  123456 Type: 7 Tamper:{Phy:01 Enc:00} Consumption:   12109 CRC:0x8161}";
      scm.Disconnect 250],
     Ok "{ID:  123456 Type: 7 Tamper:{Phy:01 Enc:00} Consumption:   12109 CRC:0x8161}")
  ∧ scm.String_ sample_scm world_without_key
    = ([scm.ReadFile "rootCA.pem";
        scm.LoadX509KeyPair "rtlsdr.certificate.crt" "rtlsdr.private.key"],
       Panic "open rtlsdr.certificate.crt: no such file or directory").
Proof. split; vm_compute; reflexivity. Qed.

(** C5, amended. [Record] has no effect and its six fields are functions
    of the message's fields alone. [String] is not free of effects: in every
    world it first reads [rootCA.pem] and loads the client key pair; it
    panics when the key pair does not load, when its certificate does not
    parse or when the broker connection fails; otherwise it connects to the
    broker, publishes the text of the message on [/rtlsdr], disconnects and
    returns that text, which depends on the message's fields alone. *)
Theorem SCM_formatting_effects (m : scm.SCM) (w : scm.World) :
  scm.Record m
  = [FormatUint (scm.ID m) 10; FormatUint (scm.Type_ m) 10;
     "0x" +:+ FormatUint (scm.TamperPhy m) 16;
     "0x" +:+ FormatUint (scm.TamperEnc m) 16;
     FormatUint (scm.Consumption m) 10;
     "0x" +:+ FormatUint (scm.ChecksumVal m) 16]
  ∧ ∃ events r,
      scm.String_ m w
      = (scm.ReadFile "rootCA.pem"
           :: scm.LoadX509KeyPair "rtlsdr.certificate.crt" "rtlsdr.private.key"
           :: events, r)
      ∧ match r with
        | Ok text =>
            text = Sprintf scm.SCM_format (scm.SCM_args m)
            ∧ ∃ cert leaf,
                scm.key_pair w = scm.Value cert
                ∧ scm.leaf_certificate w = scm.Value leaf
                ∧ scm.connect_error w = None
                ∧ events
                  = [scm.Println leaf;
                     scm.Connect "ssl://data.iot.us-west-2.amazonaws.com:8883" "rtlsdr";
                     scm.Publish "/rtlsdr" 0 false text;
                     scm.Disconnect 250]
        | Panic err =>
            (∀ topic qos retained payload,
               scm.Publish topic qos retained payload ∉ events)
            ∧ (scm.key_pair w = scm.Error err
               ∨ scm.leaf_certificate w = scm.Error err
               ∨ scm.connect_error w = Some err)
        end.
Proof.
  split; [reflexivity|].
  destruct w as [rootCA [cert|err1] [leaf|err2] [err3|]];
    cbv beta iota zeta delta
      [scm.String_ scm.NewTLSConfig scm.io_bind scm.io_call scm.io_ret
       scm.io_ask scm.io_panic scm.rootCA_pem scm.key_pair
       scm.leaf_certificate scm.connect_error app];
    do 2 eexists; (split; [reflexivity|]); cbv beta iota;
    repeat split; eauto; try (intros; set_solver).
Qed.

(** * Further properties of the code *)

(** ** Data, from bits *)

Lemma string_take_drop (n : nat) (s : string) :
  string_take n s +:+ string_drop n s = s.
Proof.
  revert s. induction n as [|n IH]; intros s; [reflexivity|].
  destruct s as [|c s]; [reflexivity|].
  cbn [string_take string_drop]. rewrite string_app_cons. now rewrite IH.
Qed.

Lemma string_length_take (n : nat) (s : string) :
  (n ≤ String.length s)%nat → String.length (string_take n s) = n.
Proof.
  revert s. induction n as [|n IH]; intros s Hn; [reflexivity|].
  destruct s as [|c s]; cbn [String.length] in *; [lia|].
  cbn [string_take String.length]. rewrite IH; lia.
Qed.

Lemma string_length_drop (n : nat) (s : string) :
  String.length (string_drop n s) = (String.length s - n)%nat.
Proof.
  revert s. induction n as [|n IH]; intros s; cbn [string_drop]; [lia|].
  destruct s as [|c s]; cbn [String.length]; [reflexivity | apply IH].
Qed.

Lemma is_binary_app (a b : string) :
  is_binary (a +:+ b) = is_binary a && is_binary b.
Proof.
  induction a as [|c a IH]; [reflexivity|].
  rewrite string_app_cons. cbn [is_binary]. rewrite IH. now rewrite andb_assoc.
Qed.

Lemma bin_value_bound (s : string) (n : Z) :
  0 ≤ n → bin_value s n < (n + 1) * 2 ^ Z.of_nat (String.length s).
Proof.
  revert n. induction s as [|c s IH]; intros n Hn.
  - cbn. lia.
  - cbn [bin_value String.length].
    rewrite Nat2Z.inj_succ, Z.pow_succ_r by lia.
    eapply Z.lt_le_trans; [apply IH; destruct (Ascii.eqb c "1"); lia|].
    assert (0 < 2 ^ Z.of_nat (String.length s)) by (apply Z.pow_pos_nonneg; lia).
    destruct (Ascii.eqb c "1"); nia.
Qed.

(** A character that is not a binary digit is no digit at all in base 2. *)
Lemma digit_val_not_binary (c : ascii) :
  Ascii.eqb c "0" || Ascii.eqb c "1" = false →
  match digit_val c with None => true | Some d => 2 <=? d end = true.
Proof.
  destruct c as [[] [] [] [] [] [] [] []]; vm_compute;
    first [reflexivity | discriminate].
Qed.

(** On a string with another character than 0 and 1, short enough for the
    digits before it to fit, [ParseUint] reports a syntax error and 0. *)
Lemma ParseUint_digits_not_binary (s : string) (maxVal n : Z) :
  is_binary s = false → 0 ≤ n →
  (n + 1) * 2 ^ Z.of_nat (String.length s) ≤ maxVal + 1 → maxVal < 2 ^ 63 →
  ParseUint_digits s 2 maxVal (2 ^ 63) n = (0, Some ErrSyntax).
Proof.
  revert n. induction s as [|c s IH]; intros n Hbin Hn Hfit Hmax;
    [discriminate Hbin|].
  cbn [is_binary] in Hbin. cbn [String.length] in Hfit.
  rewrite Nat2Z.inj_succ, Z.pow_succ_r in Hfit by lia.
  assert (Hpow : 0 < 2 ^ Z.of_nat (String.length s))
    by (apply Z.pow_pos_nonneg; lia).
  cbn [ParseUint_digits].
  destruct (Ascii.eqb c "0" || Ascii.eqb c "1") eqn:Hc.
  - assert (Hd : ∃ d, digit_val c = Some d ∧ 0 ≤ d ≤ 1).
    { apply orb_true_iff in Hc as [Hc|Hc]; apply Ascii.eqb_eq in Hc; subst c;
        eexists; (split; [reflexivity|]); cbn; lia. }
    destruct Hd as (d & -> & Hd).
    destruct (Z.leb_spec 2 d); [lia|].
    destruct (Z.leb_spec (2 ^ 63) n); [nia|].
    cbv zeta. unfold uint64. rewrite Z.mod_small by lia.
    destruct (Z.ltb_spec (n * 2 + d) (n * 2)); [lia|].
    destruct (Z.ltb_spec maxVal (n * 2 + d)); [nia|].
    cbn [orb]. apply IH; [exact Hbin | lia | nia | assumption].
  - pose proof (digit_val_not_binary c Hc) as Hd.
    destruct (digit_val c) as [d|]; [|reflexivity].
    now rewrite Hd.
Qed.

(** [ParseUint] in base 2 on binary digits that fit the bit size. *)
Lemma ParseUint_binary (s : string) (bitSize : Z) :
  s ≠ EmptyString → is_binary s = true → 0 < bitSize ≤ 63 →
  bin_value s 0 < 2 ^ bitSize →
  ParseUint s 2 bitSize = (bin_value s 0, None).
Proof.
  intros Hne Hbin Hsize Hfit. destruct s as [|c s]; [congruence|].
  unfold ParseUint.
  change (negb ((2 <=? 2) && (2 <=? 36))) with false.
  destruct (Z.ltb_spec bitSize 0); [lia|].
  destruct (Z.ltb_spec 64 bitSize); [lia|].
  cbv iota zeta. cbn [orb].
  destruct (Z.eqb_spec bitSize 0); [lia|].
  change ((2 ^ 64 - 1) / 2 + 1) with (2 ^ 63).
  assert (2 ^ bitSize ≤ 2 ^ 63) by (apply Z.pow_le_mono_r; lia).
  apply ParseUint_digits_binary; [assumption|lia|lia|lia].
Qed.

(** What the loop of [NewDataFromBits] stores for a group of eight
    characters. *)
Lemma ParseUint_group (group : string) :
  String.length group = 8%nat →
  byte_of_Z (uint8 (fst (ParseUint group 2 8))) = group_byte group.
Proof.
  intros Hlen. unfold group_byte.
  destruct (is_binary group) eqn:Hbin.
  - pose proof (bin_value_bound group 0 ltac:(lia)) as Hb.
    rewrite Hlen in Hb. change ((0 + 1) * 2 ^ Z.of_nat 8) with 256 in Hb.
    rewrite ParseUint_binary; [| |assumption|lia|exact Hb].
    + cbn [fst]. unfold byte_of_Z, uint8. now rewrite Zmod_mod.
    + intros ->. discriminate Hlen.
  - destruct group as [|c group]; [discriminate Hlen|].
    unfold ParseUint.
    change (negb ((2 <=? 2) && (2 <=? 36))) with false.
    change ((8 <? 0) || (64 <? 8)) with false.
    cbv iota zeta. change (if 8 =? 0 then 64 else 8) with 8.
    change ((2 ^ 64 - 1) / 2 + 1) with (2 ^ 63).
    rewrite ParseUint_digits_not_binary; [reflexivity|assumption|lia| |reflexivity].
    rewrite Hlen. reflexivity.
Qed.

(** Invariant of the loop on any string of [q] whole groups: with the bytes
    [done] stored and the groups of [rest] ahead, it stores a byte for each
    group. *)
Lemma NewDataFromBits_loop_groups (q : nat) :
  ∀ (rest : string) (done : list byte) (pre : string) (idx : nat),
    String.length pre = idx →
    idx = (8 * length done)%nat →
    String.length rest = (8 * q)%nat →
    parse.NewDataFromBits_loop (pre +:+ rest) idx (done ++ replicate q x00)
    = Ok (done ++ map group_byte (groups_of_8 q rest)).
Proof.
  induction q as [|q IH]; intros rest done pre idx Hpre Hidx Hrest.
  - rewrite NewDataFromBits_loop_step, string_length_app, Hrest, Hpre.
    destruct (Nat.ltb_spec idx (idx + 8 * 0)); [lia | reflexivity].
  - rewrite NewDataFromBits_loop_step, string_length_app, Hrest, Hpre.
    destruct (Nat.ltb_spec idx (idx + 8 * S q)); [|lia].
    assert (Hlen : String.length (string_take 8 rest) = 8%nat)
      by (apply string_length_take; lia).
    assert (Hwhole : pre +:+ rest
                     = pre +:+ string_take 8 rest +:+ string_drop 8 rest)
      by now rewrite string_take_drop.
    rewrite Hwhole.
    rewrite (slice_string_middle pre (string_take 8 rest)); [|lia|lia].
    cbn [bind]. rewrite (ParseUint_group _ Hlen), Hidx, shiftr_3_mul_8.
    unfold set_index. rewrite length_app.
    change (replicate (S q) x00) with (x00 :: replicate q x00).
    change (length (x00 :: replicate q x00)) with (S (length (replicate q x00))).
    destruct (Nat.ltb_spec (length done)
                (length done + S (length (replicate q x00)))); [|lia].
    cbn [bind].
    replace (<[length done:=group_byte (string_take 8 rest)]>
               (done ++ x00 :: replicate q x00))
      with ((done ++ [group_byte (string_take 8 rest)]) ++ replicate q x00).
    2:{ rewrite <- (Nat.add_0_r (length done)) at 1.
        rewrite insert_app_r. cbn. now rewrite <- app_assoc. }
    rewrite <- string_app_assoc.
    rewrite (IH (string_drop 8 rest) (done ++ [group_byte (string_take 8 rest)])).
    + cbn [groups_of_8 map]. now rewrite <- app_assoc.
    + rewrite string_length_app, Hpre, Hlen. lia.
    + rewrite length_app. cbn [length]. lia.
    + rewrite string_length_drop, Hrest. lia.
Qed.

Lemma is_binary_take_drop (n : nat) (s : string) :
  is_binary s = true →
  is_binary (string_take n s) = true ∧ is_binary (string_drop n s) = true.
Proof.
  intros Hbin. rewrite <- (string_take_drop n s), is_binary_app in Hbin.
  now apply andb_true_iff in Hbin.
Qed.

(** The eight digits written for the byte of a binary group are the group. *)
Lemma byte_bits_group_byte (group : string) :
  String.length group = 8%nat → is_binary group = true →
  byte_bits (group_byte group) = group.
Proof.
  intros Hlen.
  destruct group as [|c0 [|c1 [|c2 [|c3 [|c4 [|c5 [|c6 [|c7 [|? ?]]]]]]]]];
    try discriminate Hlen.
  cbn [is_binary]. rewrite !andb_true_iff, !orb_true_iff, !Ascii.eqb_eq.
  intros (H0 & H1 & H2 & H3 & H4 & H5 & H6 & H7 & _).
  destruct H0 as [-> | ->], H1 as [-> | ->], H2 as [-> | ->], H3 as [-> | ->],
    H4 as [-> | ->], H5 as [-> | ->], H6 as [-> | ->], H7 as [-> | ->];
    vm_compute; reflexivity.
Qed.

Lemma Bits_groups (q : nat) (data : string) :
  String.length data = (8 * q)%nat → is_binary data = true →
  parse.Bits (parse.NewDataFromBytes (map group_byte (groups_of_8 q data))) = data.
Proof.
  revert data. induction q as [|q IH]; intros data Hlen Hbin.
  - destruct data; [reflexivity | discriminate Hlen].
  - cbn [groups_of_8 map]. rewrite Bits_cons.
    destruct (is_binary_take_drop 8 data Hbin) as [Htake Hdrop].
    rewrite byte_bits_group_byte; [|apply string_length_take; lia|exact Htake].
    rewrite IH; [apply string_take_drop| |exact Hdrop].
    rewrite string_length_drop, Hlen. lia.
Qed.

Lemma NewDataFromBits_groups (data : string) :
  (String.length data mod 8 = 0)%nat →
  parse.NewDataFromBits data
  = Ok {| parse.Bits := data;
          parse.Bytes := map group_byte (groups_of_8 (String.length data / 8) data) |}.
Proof.
  intros Hmod. unfold parse.NewDataFromBits.
  pose proof (Nat.div_mod_eq (String.length data) 8) as Hdiv.
  rewrite Hmod, Nat.add_0_r in Hdiv.
  assert (Hq : Nat.shiftr (String.length data + 7) 3 = (String.length data / 8)%nat).
  { rewrite shiftr_3_div. rewrite Hdiv at 1.
    replace (8 * (String.length data / 8) + 7)%nat
      with (7 + (String.length data / 8) * 8)%nat by lia.
    rewrite Nat.div_add by lia. reflexivity. }
  rewrite Hq.
  pose proof (NewDataFromBits_loop_groups (String.length data / 8) data []
                EmptyString 0 eq_refl eq_refl Hdiv) as Hloop.
  rewrite string_app_nil_l in Hloop. cbn [app] in Hloop. now rewrite Hloop.
Qed.

(** X1. [NewDataFromBits] returns exactly on the strings whose length is a
    multiple of 8, whatever their characters; it then keeps the string as
    [Bits] and has one byte per eight characters. On any other length it
    panics, on the slice that runs past the end of the string. *)
Theorem NewDataFromBits_returns_iff (data : string) :
  match parse.NewDataFromBits data with
  | Ok d =>
      (String.length data mod 8 = 0)%nat
      ∧ parse.Bits d = data
      ∧ length (parse.Bytes d) = (String.length data / 8)%nat
  | Panic msg =>
      (String.length data mod 8 ≠ 0)%nat ∧ msg = "slice bounds out of range"
  end.
Proof.
  pose proof (NewDataFromBits_outcome data) as H.
  destruct (Nat.eqb_spec (String.length data mod 8) 0) as [Hmod|Hmod].
  - destruct H as (bytes & -> & Hlen). auto.
  - rewrite H. auto.
Qed.

(** X2. On a string of whole groups of eight characters [NewDataFromBits]
    stores, for each group in turn, the byte its binary digits denote, and
    the byte 0 for a group with a character other than 0 and 1: the error
    [ParseUint] reports there is dropped. *)
Theorem NewDataFromBits_bytes (data : string) :
  (String.length data mod 8 = 0)%nat →
  parse.NewDataFromBits data
  = Ok {| parse.Bits := data;
          parse.Bytes := map group_byte (groups_of_8 (String.length data / 8) data) |}.
Proof. apply NewDataFromBits_groups. Qed.

(** X2 at work: the second group has no binary digits and becomes 0. *)
Lemma NewDataFromBits_bytes_witness :
  parse.NewDataFromBits "00000101meter id"
  = Ok {| parse.Bits := "00000101meter id"; parse.Bytes := [x05; x00] |}.
Proof. exact (NewDataFromBits_bytes "00000101meter id" eq_refl). Defined.

(** X3. Bits to bytes and back: on a string of binary digits whose length
    is a multiple of 8, [NewDataFromBits] returns a [Data] that
    [NewDataFromBytes] rebuilds from its bytes, bits included. *)
Theorem Data_bits_bytes_roundtrip (data : string) :
  is_binary data = true →
  (String.length data mod 8 = 0)%nat →
  ∃ d, parse.NewDataFromBits data = Ok d
       ∧ parse.NewDataFromBytes (parse.Bytes d) = d.
Proof.
  intros Hbin Hmod. eexists. split; [apply NewDataFromBits_groups, Hmod|].
  cbn [parse.Bytes].
  pose proof (Nat.div_mod_eq (String.length data) 8) as Hdiv.
  rewrite Hmod, Nat.add_0_r in Hdiv.
  pose proof (Bits_groups _ data Hdiv Hbin) as Hbits.
  unfold parse.NewDataFromBytes in *. cbn [parse.Bits] in Hbits.
  now rewrite Hbits.
Qed.

(** X3 at work, on sixteen binary digits. *)
Lemma Data_bits_bytes_roundtrip_witness :
  ∃ d, parse.NewDataFromBits "1111100101010011" = Ok d
       ∧ parse.NewDataFromBytes (parse.Bytes d) = d.
Proof. exact (Data_bits_bytes_roundtrip "1111100101010011" eq_refl eq_refl). Defined.

(** ** Data, from bytes *)

Lemma Bits_is_binary (bs : list byte) :
  is_binary (parse.Bits (parse.NewDataFromBytes bs)) = true.
Proof.
  induction bs as [|b bs IH]; [reflexivity|].
  rewrite Bits_cons, is_binary_app, IH.
  now destruct (byte_bits_binary b) as (_ & -> & _).
Qed.

Lemma byte_bits_inj (a b : byte) : byte_bits a = byte_bits b → a = b.
Proof.
  intros H. destruct (byte_bits_spec a) as [_ <-], (byte_bits_spec b) as [_ <-].
  now rewrite H.
Qed.

Lemma Bits_inj (l1 l2 : list byte) :
  parse.Bits (parse.NewDataFromBytes l1) = parse.Bits (parse.NewDataFromBytes l2) →
  l1 = l2.
Proof.
  revert l2. induction l1 as [|a l1 IH]; intros l2 Heq.
  - apply (f_equal String.length) in Heq. rewrite !Bits_length in Heq.
    destruct l2; [reflexivity | cbn [length] in Heq; lia].
  - destruct l2 as [|b l2].
    { apply (f_equal String.length) in Heq. rewrite !Bits_length in Heq.
      cbn [length] in Heq. lia. }
    rewrite !Bits_cons in Heq.
    destruct (byte_bits_spec a) as [Ha _], (byte_bits_spec b) as [Hb _].
    assert (Hhead : byte_bits a = byte_bits b).
    { rewrite <- (string_take_app (byte_bits a) (parse.Bits (parse.NewDataFromBytes l1))).
      rewrite Heq, Ha, <- Hb. apply string_take_app. }
    assert (Htail : parse.Bits (parse.NewDataFromBytes l1)
                    = parse.Bits (parse.NewDataFromBytes l2)).
    { rewrite <- (string_drop_app (byte_bits a) (parse.Bits (parse.NewDataFromBytes l1))).
      rewrite Heq, Ha, <- Hb. apply string_drop_app. }
    f_equal; [now apply byte_bits_inj | now apply IH].
Qed.

(** X4. The bits [NewDataFromBytes] derives are binary digits only, the
    bits of a concatenation are the bits of its parts one after the other,
    and different byte sequences never share their bits. *)
Theorem NewDataFromBytes_bits (l1 l2 : list byte) :
  is_binary (parse.Bits (parse.NewDataFromBytes l1)) = true
  ∧ parse.Bits (parse.NewDataFromBytes (l1 ++ l2))
    = parse.Bits (parse.NewDataFromBytes l1) +:+ parse.Bits (parse.NewDataFromBytes l2)
  ∧ (parse.Bits (parse.NewDataFromBytes l1) = parse.Bits (parse.NewDataFromBytes l2)
     ↔ l1 = l2).
Proof.
  split; [apply Bits_is_binary|]. split; [apply Bits_app|].
  split; [apply Bits_inj | now intros ->].
Qed.

(** ** NewSCM *)

Lemma ParseUint_digits_range (s : string) (base maxVal cutoff n : Z) :
  0 ≤ n ≤ maxVal →
  0 ≤ fst (ParseUint_digits s base maxVal cutoff n) ≤ maxVal.
Proof.
  revert n. induction s as [|c s IH]; intros n Hn; cbn [ParseUint_digits fst];
    [exact Hn|].
  destruct (digit_val c) as [d|]; cbn [fst]; [|lia].
  destruct (base <=? d); cbn [fst]; [lia|].
  destruct (cutoff <=? n); cbn [fst]; [lia|].
  cbv zeta.
  destruct (Z.ltb_spec (uint64 (n * base + d)) (n * base)); cbn [orb fst]; [lia|].
  destruct (Z.ltb_spec maxVal (uint64 (n * base + d))); cbn [fst]; [lia|].
  apply IH. split; [|assumption].
  unfold uint64. apply Z.mod_pos_bound. reflexivity.
Qed.

(** Whatever the string, [ParseUint] in base 2 gives a number of at most
    [bitSize] bits. *)
Lemma ParseUint_range (s : string) (bitSize : Z) :
  0 < bitSize ≤ 64 → 0 ≤ fst (ParseUint s 2 bitSize) < 2 ^ bitSize.
Proof.
  intros Hsize.
  assert (Hpow : 0 < 2 ^ bitSize) by (apply Z.pow_pos_nonneg; lia).
  destruct s as [|c s]; [cbn; lia|].
  unfold ParseUint.
  change (negb ((2 <=? 2) && (2 <=? 36))) with false.
  destruct (Z.ltb_spec bitSize 0); [lia|].
  destruct (Z.ltb_spec 64 bitSize); [lia|].
  cbv iota zeta. cbn [orb].
  destruct (Z.eqb_spec bitSize 0); [lia|].
  pose proof (ParseUint_digits_range (String c s) 2 (2 ^ bitSize - 1)
                ((2 ^ 64 - 1) / 2 + 1) 0 ltac:(lia)).
  lia.
Qed.

Lemma slice_string_le (s : string) (lo hi : nat) :
  (lo ≤ hi)%nat → (hi ≤ String.length s)%nat →
  slice_string s lo hi = Ok (string_take (hi - lo) (string_drop lo s)).
Proof.
  intros Hlo Hhi. apply slice_string_ok.
  apply andb_true_iff. split; apply Nat.leb_le; assumption.
Qed.

(** [NewSCM] on any [Data]: with fewer than 96 bits it panics on a slice;
    with 96 or more it returns, and each field fits the number of bits it
    was read from. *)
Lemma NewSCM_outcome (data : parse.Data) :
  match scm.NewSCM data with
  | Ok m =>
      (96 ≤ String.length (parse.Bits data))%nat
      ∧ 0 ≤ scm.ID m < 2 ^ 26
      ∧ 0 ≤ scm.Type_ m < 2 ^ 4
      ∧ 0 ≤ scm.TamperPhy m < 2 ^ 2
      ∧ 0 ≤ scm.TamperEnc m < 2 ^ 2
      ∧ 0 ≤ scm.Consumption m < 2 ^ 24
      ∧ 0 ≤ scm.ChecksumVal m < 2 ^ 16
  | Panic msg =>
      (String.length (parse.Bits data) < 96)%nat
      ∧ msg = "slice bounds out of range"
  end.
Proof.
  unfold scm.NewSCM.
  destruct (le_lt_dec 96 (String.length (parse.Bits data))) as [Hlen|Hlen].
  - rewrite !slice_string_le by lia. cbn [bind].
    cbn [scm.ID scm.Type_ scm.TamperPhy scm.TamperEnc scm.Consumption
           scm.ChecksumVal].
    split; [exact Hlen|].
    repeat match goal with
    | |- context [ParseUint ?s 2 ?k] =>
        let H := fresh "Hr" in
        pose proof (ParseUint_range s k ltac:(lia)) as H;
        generalize dependent (fst (ParseUint s 2 k)); intros
    end.
    unfold uint32, uint16, uint8.
    change (2 ^ 26) with 67108864 in *. change (2 ^ 24) with 16777216 in *.
    change (2 ^ 16) with 65536 in *. change (2 ^ 4) with 16 in *.
    change (2 ^ 2) with 4 in *. change (2 ^ 32) with 4294967296.
    change (2 ^ 8) with 256.
    rewrite !Z.mod_small by lia. lia.
  - destruct (le_lt_dec 23 (String.length (parse.Bits data))) as [H23|H23].
    2:{ rewrite (slice_string_out_of_bounds _ 21 23) by lia. cbn [bind]. auto. }
    rewrite (slice_string_le _ 21 23) by lia. cbn [bind].
    destruct (le_lt_dec 80 (String.length (parse.Bits data))) as [H80|H80].
    2:{ rewrite (slice_string_out_of_bounds _ 56 80) by lia. cbn [bind]. auto. }
    rewrite !slice_string_le by lia. cbn [bind].
    rewrite (slice_string_out_of_bounds _ 80 96) by lia. cbn [bind]. auto.
Qed.

(** X6. [NewSCM] on any [Data] returns exactly when there are at least 96
    bits; otherwise it panics on a slice out of bounds. Each field of the
    message it returns fits the bits it is read from: 26 for the meter ID,
    4 for the type, 2 for each tamper flag, 24 for the consumption and 16
    for the checksum, whatever the characters of the bit string. *)
Theorem NewSCM_returns_iff (data : parse.Data) :
  match scm.NewSCM data with
  | Ok m =>
      (96 ≤ String.length (parse.Bits data))%nat
      ∧ 0 ≤ scm.ID m < 2 ^ 26
      ∧ 0 ≤ scm.Type_ m < 2 ^ 4
      ∧ 0 ≤ scm.TamperPhy m < 2 ^ 2
      ∧ 0 ≤ scm.TamperEnc m < 2 ^ 2
      ∧ 0 ≤ scm.Consumption m < 2 ^ 24
      ∧ 0 ≤ scm.ChecksumVal m < 2 ^ 16
  | Panic msg =>
      (String.length (parse.Bits data) < 96)%nat
      ∧ msg = "slice bounds out of range"
  end.
Proof. apply NewSCM_outcome. Qed.

(** A slice of [n] characters that lies inside the group [g] of
    [a +:+ g +:+ c], from the place [lo] of the group. *)
Lemma slice_string_inside (a g c : string) (start stop lo n : nat) :
  start = (String.length a + lo)%nat → stop = (start + n)%nat →
  (lo + n ≤ String.length g)%nat →
  slice_string (a +:+ g +:+ c) start stop
  = Ok (string_take n (string_drop lo g)).
Proof.
  intros -> -> Hfit.
  rewrite <- (string_take_drop lo g) at 1.
  rewrite <- (string_take_drop n (string_drop lo g)) at 1.
  rewrite !string_app_assoc, <- (string_app_assoc a).
  apply slice_string_middle.
  - rewrite string_length_app, string_length_take; lia.
  - rewrite string_length_take; [lia|]. rewrite string_length_drop. lia.
Qed.

(** The sub-byte fields of an SCM packet, read from the digits of one byte. *)
Lemma byte_bit_fields (b : byte) :
  is_binary (string_take 2 (string_drop 5 (byte_bits b))) = true
  ∧ String.length (string_take 2 (string_drop 5 (byte_bits b))) = 2%nat
  ∧ bin_value (string_take 2 (string_drop 5 (byte_bits b))) 0
    = Z.land (Z.shiftr (Z_of_byte b) 1) 3
  ∧ (Z.land (Z.shiftr (Z_of_byte b) 1) 3 <? 4) = true
  ∧ uint8 (fst (ParseUint (string_take 4 (string_drop 2 (byte_bits b))) 2 4))
    = Z.land (Z.shiftr (Z_of_byte b) 2) 15
  ∧ uint8 (fst (ParseUint (string_take 2 (string_drop 0 (byte_bits b))) 2 2))
    = Z.shiftr (Z_of_byte b) 6
  ∧ uint8 (fst (ParseUint (string_take 2 (string_drop 6 (byte_bits b))) 2 2))
    = Z.land (Z_of_byte b) 3.
Proof. destruct b; vm_compute; repeat split; reflexivity. Qed.

Lemma bin_value_Bits_cons (b : byte) (l : list byte) (n : Z) :
  bin_value (parse.Bits (parse.NewDataFromBytes (b :: l))) n
  = bin_value (parse.Bits (parse.NewDataFromBytes l)) (n * 256 + Z_of_byte b).
Proof.
  rewrite Bits_cons, bin_value_app, (bin_value_shift (byte_bits b)).
  destruct (byte_bits_binary b) as (-> & _ & ->). reflexivity.
Qed.

(** [ParseUint] on the bits of some bytes that fit the bit size reads the
    number they denote. *)
Lemma ParseUint_Bits (l : list byte) (bitSize : Z) :
  l ≠ [] → Z.of_nat (8 * length l) ≤ bitSize ≤ 63 →
  ParseUint (parse.Bits (parse.NewDataFromBytes l)) 2 bitSize
  = (bin_value (parse.Bits (parse.NewDataFromBytes l)) 0, None).
Proof.
  intros Hne Hsize.
  apply ParseUint_binary.
  - intros Hnil. apply (f_equal String.length) in Hnil.
    rewrite Bits_length in Hnil. destruct l; [congruence | discriminate Hnil].
  - apply Bits_is_binary.
  - destruct l; [congruence|]. cbn [length] in Hsize. lia.
  - pose proof (bin_value_bound (parse.Bits (parse.NewDataFromBytes l)) 0 ltac:(lia)) as Hb.
    rewrite Bits_length in Hb.
    eapply Z.lt_le_trans; [exact Hb|].
    rewrite Z.add_0_l, Z.mul_1_l. apply Z.pow_le_mono_r; lia.
Qed.

(** The fields of the message [NewSCM] reads from twelve bytes. *)
Lemma NewSCM_layout (b0 b1 b2 b3 b4 b5 b6 b7 b8 b9 b10 b11 : byte) :
  scm.NewSCM (parse.NewDataFromBytes [b0; b1; b2; b3; b4; b5; b6; b7; b8; b9; b10; b11])
  = Ok {| scm.ID := Z.land (Z.shiftr (Z_of_byte b2) 1) 3 * 2 ^ 24
                    + Z_of_byte b7 * 2 ^ 16 + Z_of_byte b8 * 2 ^ 8 + Z_of_byte b9;
          scm.Type_ := Z.land (Z.shiftr (Z_of_byte b3) 2) 15;
          scm.TamperPhy := Z.shiftr (Z_of_byte b3) 6;
          scm.TamperEnc := Z.land (Z_of_byte b3) 3;
          scm.Consumption := Z_of_byte b4 * 2 ^ 16 + Z_of_byte b5 * 2 ^ 8 + Z_of_byte b6;
          scm.ChecksumVal := Z_of_byte b10 * 2 ^ 8 + Z_of_byte b11 |}.
Proof.
  set (B := λ l, parse.Bits (parse.NewDataFromBytes l)).
  assert (Hlen : ∀ l, String.length (B l) = (8 * length l)%nat)
    by (intros l; apply Bits_length).
  assert (Hone : ∀ b, B [b] = byte_bits b).
  { intros b. unfold B. rewrite Bits_cons. apply string_app_nil_r. }
  unfold scm.NewSCM. fold (B [b0; b1; b2; b3; b4; b5; b6; b7; b8; b9; b10; b11]).
  (* bits 21..23, in byte 2 *)
  assert (S1 : slice_string (B [b0; b1; b2; b3; b4; b5; b6; b7; b8; b9; b10; b11]) 21 23
               = Ok (string_take 2 (string_drop 5 (byte_bits b2)))).
  { change [b0; b1; b2; b3; b4; b5; b6; b7; b8; b9; b10; b11]
      with ([b0; b1] ++ [b2] ++ [b3; b4; b5; b6; b7; b8; b9; b10; b11]).
    unfold B. rewrite !Bits_app. fold (B [b0; b1]) (B [b2]). rewrite Hone.
    apply slice_string_inside; [rewrite Hlen; reflexivity | reflexivity |].
    destruct (byte_bits_spec b2) as [-> _]. lia. }
  (* bits 56..80, bytes 7 to 9 *)
  assert (S2 : slice_string (B [b0; b1; b2; b3; b4; b5; b6; b7; b8; b9; b10; b11]) 56 80
               = Ok (B [b7; b8; b9])).
  { change [b0; b1; b2; b3; b4; b5; b6; b7; b8; b9; b10; b11]
      with ([b0; b1; b2; b3; b4; b5; b6] ++ [b7; b8; b9] ++ [b10; b11]).
    unfold B. rewrite !Bits_app. apply slice_string_middle; rewrite !Bits_length; reflexivity. }
  (* bits 24..32, in byte 3 *)
  assert (S3 : ∀ lo n, (lo + n ≤ 8)%nat →
               slice_string (B [b0; b1; b2; b3; b4; b5; b6; b7; b8; b9; b10; b11])
                 (24 + lo) (24 + lo + n)
               = Ok (string_take n (string_drop lo (byte_bits b3)))).
  { intros lo n Hfit.
    change [b0; b1; b2; b3; b4; b5; b6; b7; b8; b9; b10; b11]
      with ([b0; b1; b2] ++ [b3] ++ [b4; b5; b6; b7; b8; b9; b10; b11]).
    unfold B. rewrite !Bits_app. fold (B [b0; b1; b2]) (B [b3]). rewrite Hone.
    apply slice_string_inside; [rewrite Hlen; reflexivity | reflexivity |].
    destruct (byte_bits_spec b3) as [-> _]. lia. }
  (* bits 32..56, bytes 4 to 6 *)
  assert (S4 : slice_string (B [b0; b1; b2; b3; b4; b5; b6; b7; b8; b9; b10; b11]) 32 56
               = Ok (B [b4; b5; b6])).
  { change [b0; b1; b2; b3; b4; b5; b6; b7; b8; b9; b10; b11]
      with ([b0; b1; b2; b3] ++ [b4; b5; b6] ++ [b7; b8; b9; b10; b11]).
    unfold B. rewrite !Bits_app. apply slice_string_middle; rewrite !Bits_length; reflexivity. }
  (* bits 80..96, bytes 10 and 11 *)
  assert (S5 : slice_string (B [b0; b1; b2; b3; b4; b5; b6; b7; b8; b9; b10; b11]) 80 96
               = Ok (B [b10; b11])).
  { change [b0; b1; b2; b3; b4; b5; b6; b7; b8; b9; b10; b11]
      with ([b0; b1; b2; b3; b4; b5; b6; b7; b8; b9] ++ [b10; b11] ++ []).
    unfold B. rewrite !Bits_app. apply slice_string_middle; rewrite !Bits_length; reflexivity. }
  assert (S3a : slice_string (B [b0; b1; b2; b3; b4; b5; b6; b7; b8; b9; b10; b11]) 26 30
                = Ok (string_take 4 (string_drop 2 (byte_bits b3))))
    by exact (S3 2 4 ltac:(lia))%nat.
  assert (S3b : slice_string (B [b0; b1; b2; b3; b4; b5; b6; b7; b8; b9; b10; b11]) 24 26
                = Ok (string_take 2 (string_drop 0 (byte_bits b3))))
    by exact (S3 0 2 ltac:(lia))%nat.
  assert (S3c : slice_string (B [b0; b1; b2; b3; b4; b5; b6; b7; b8; b9; b10; b11]) 30 32
                = Ok (string_take 2 (string_drop 6 (byte_bits b3))))
    by exact (S3 6 2 ltac:(lia))%nat.
  rewrite S1, S2, S3a, S3b, S3c, S4, S5.
  cbn [bind].
  destruct (byte_bit_fields b2) as (Hbin & Hl2 & Hval & Hlt & _).
  destruct (byte_bit_fields b3) as (_ & _ & _ & _ & -> & -> & ->).
  apply Z.ltb_lt in Hlt.
  pose proof (Z.land_nonneg (Z.shiftr (Z_of_byte b2) 1) 3) as Hnn.
  pose proof (Z_of_byte_range b4). pose proof (Z_of_byte_range b5).
  pose proof (Z_of_byte_range b6). pose proof (Z_of_byte_range b7).
  pose proof (Z_of_byte_range b8). pose proof (Z_of_byte_range b9).
  pose proof (Z_of_byte_range b10). pose proof (Z_of_byte_range b11).
  assert (Hid : ParseUint (string_take 2 (string_drop 5 (byte_bits b2)) +:+ B [b7; b8; b9]) 2 26
                = (Z.land (Z.shiftr (Z_of_byte b2) 1) 3 * 2 ^ 24
                   + Z_of_byte b7 * 2 ^ 16 + Z_of_byte b8 * 2 ^ 8 + Z_of_byte b9, None)).
  { assert (Hv : bin_value (string_take 2 (string_drop 5 (byte_bits b2)) +:+ B [b7; b8; b9]) 0
                 = Z.land (Z.shiftr (Z_of_byte b2) 1) 3 * 2 ^ 24
                   + Z_of_byte b7 * 2 ^ 16 + Z_of_byte b8 * 2 ^ 8 + Z_of_byte b9).
    { rewrite bin_value_app, Hval. unfold B. rewrite !bin_value_Bits_cons.
      cbn [bin_value parse.NewDataFromBytes parse.Bits fold_left]. lia. }
    rewrite <- Hv. apply ParseUint_binary.
    - intros Hnil. apply (f_equal String.length) in Hnil.
      rewrite string_length_app, Hl2 in Hnil. discriminate Hnil.
    - rewrite is_binary_app, Hbin. apply Bits_is_binary.
    - lia.
    - rewrite Hv. lia. }
  rewrite Hid.
  unfold B. rewrite !ParseUint_Bits by (first [discriminate | cbn; lia]).
  rewrite !bin_value_Bits_cons.
  cbn [fst bin_value parse.NewDataFromBytes parse.Bits fold_left].
  unfold uint32, uint16.
  rewrite !Z.mod_small by lia.
  f_equal. f_equal; lia.
Qed.

(** X5. The bit layout of an SCM packet. Of the twelve bytes of a packet
    [NewSCM] reads the meter ID from bits 1 and 2 of byte 2 followed by
    bytes 7 to 9, the tamper flags and the type from byte 3 (two bits, four
    bits, two bits), the consumption from bytes 4 to 6 and the checksum
    from bytes 10 and 11, all most significant first. Bytes 0 and 1 and the
    other bits of byte 2 are not read. *)
Theorem NewSCM_field_layout (b0 b1 b2 b3 b4 b5 b6 b7 b8 b9 b10 b11 : byte) :
  scm.NewSCM (parse.NewDataFromBytes [b0; b1; b2; b3; b4; b5; b6; b7; b8; b9; b10; b11])
  = Ok {| scm.ID := Z.land (Z.shiftr (Z_of_byte b2) 1) 3 * 2 ^ 24
                    + Z_of_byte b7 * 2 ^ 16 + Z_of_byte b8 * 2 ^ 8 + Z_of_byte b9;
          scm.Type_ := Z.land (Z.shiftr (Z_of_byte b3) 2) 15;
          scm.TamperPhy := Z.shiftr (Z_of_byte b3) 6;
          scm.TamperEnc := Z.land (Z_of_byte b3) 3;
          scm.Consumption := Z_of_byte b4 * 2 ^ 16 + Z_of_byte b5 * 2 ^ 8 + Z_of_byte b6;
          scm.ChecksumVal := Z_of_byte b10 * 2 ^ 8 + Z_of_byte b11 |}.
Proof. apply NewSCM_layout. Qed.

(** ** Parse, on the slicer's whole output *)

Lemma dedup_from_app (prev l1 l2 : list (list byte)) :
  dedup_from prev (l1 ++ l2) = dedup_from prev l1 ++ dedup_from (l1 ++ prev) l2.
Proof.
  revert prev. induction l1 as [|pkt l1 IH]; intros prev; [reflexivity|].
  cbn [app dedup_from]. destruct (decide (pkt ∈ prev)) as [Hin|Hout].
  - rewrite IH. f_equal. apply dedup_from_ext. intros x _.
    rewrite !elem_of_app, elem_of_cons. set_solver.
  - rewrite IH. cbn [app]. f_equal. f_equal. apply dedup_from_ext. intros x _.
    set_solver.
Qed.

Lemma dedup_from_seen (l1 prev l2 : list (list byte)) :
  dedup_from (l1 ++ prev) l2 = dedup_from prev (filter (λ pkt, pkt ∉ l1) l2).
Proof.
  revert prev. induction l2 as [|pkt l2 IH]; intros prev; [reflexivity|].
  rewrite filter_cons. cbn [dedup_from].
  destruct (decide (pkt ∉ l1)) as [Hnew|Hold].
  - cbn [dedup_from]. destruct (decide (pkt ∈ prev)) as [Hin|Hout].
    + destruct (decide (pkt ∈ l1 ++ prev)) as [_|Hno]; [apply IH|].
      exfalso. apply Hno. apply elem_of_app. now right.
    + destruct (decide (pkt ∈ l1 ++ prev)) as [Hyes|_].
      { apply elem_of_app in Hyes. tauto. }
      f_equal. rewrite <- IH. apply dedup_from_ext. intros x _.
      set_solver.
  - destruct (decide (pkt ∈ l1 ++ prev)) as [_|Hno]; [apply IH|].
    exfalso. apply Hno. apply elem_of_app. left.
    destruct (decide (pkt ∈ l1)); [assumption | contradiction].
Qed.

Lemma Parse_with_packets (p : scm.Parser) (pkts : list (list byte)) (indices : list Z) :
  scm.Parse (with_packets p pkts) indices
  = Ok (omap (accepted p) (first_occurrences pkts)).
Proof. rewrite Parse_spec. reflexivity. Qed.

(** X8. [Parse] works through the slicer's output in order and remembers
    what it saw: on the packets [l1] followed by [l2] it returns the
    messages it returns on [l1] alone, followed by those it returns on the
    packets of [l2] that do not occur in [l1]. *)
Theorem Parse_of_concatenation (p : scm.Parser) (l1 l2 : list (list byte))
    (indices : list Z) :
  scm.Parse (with_packets p (l1 ++ l2)) indices
  = (msgs1 ←! scm.Parse (with_packets p l1) indices;
     msgs2 ←! scm.Parse (with_packets p (filter (λ pkt, pkt ∉ l1) l2)) indices;
     Ok (msgs1 ++ msgs2)).
Proof.
  rewrite !Parse_with_packets. cbn [bind]. unfold first_occurrences.
  rewrite dedup_from_app, omap_app. do 3 f_equal. apply dedup_from_seen.
Qed.

(** A message returned by [NewSCM] for a packet [Parse] accepts is within
    the widths of its fields. *)
Lemma emits_ranges (p : scm.Parser) (pkt : list byte) (m : scm.SCM) :
  emits p pkt m →
  0 < scm.ID m < 2 ^ 26 ∧ 0 ≤ scm.Type_ m < 2 ^ 4
  ∧ 0 ≤ scm.TamperPhy m < 2 ^ 2 ∧ 0 ≤ scm.TamperEnc m < 2 ^ 2
  ∧ 0 ≤ scm.Consumption m < 2 ^ 24 ∧ 0 ≤ scm.ChecksumVal m < 2 ^ 16.
Proof.
  intros (_ & _ & Hm & Hid).
  pose proof (NewSCM_outcome (parse.NewDataFromBytes pkt)) as Hout.
  rewrite Hm in Hout. destruct Hout as (_ & H1 & H2 & H3 & H4 & H5 & H6).
  repeat split; first [tauto | lia].
Qed.

Lemma length_omap_le {A B : Type} (f : A → option B) (l : list A) :
  (length (omap f l) ≤ length l)%nat.
Proof.
  induction l as [|x l IH]; [reflexivity|].
  rewrite omap_cons_option, length_app. cbn [length].
  destruct (f x); cbn; lia.
Qed.

Lemma length_dedup_from (prev pkts : list (list byte)) :
  (length (dedup_from prev pkts) ≤ length pkts)%nat.
Proof.
  revert prev. induction pkts as [|pkt rest IH]; intros prev; cbn [dedup_from length];
    [lia|].
  destruct (decide (pkt ∈ prev)); cbn [length];
    [specialize (IH prev) | specialize (IH (pkt :: prev))]; lia.
Qed.

(** X9. [Parse] returns at most one message per packet the slicer yields,
    and each message it returns has a meter ID from 1 to 2^26 - 1, a type
    below 16, tamper flags below 4, a consumption below 2^24 and a checksum
    field below 2^16. *)
Theorem Parse_output_bounds (p : scm.Parser) (indices : list Z) :
  ∃ msgs,
    scm.Parse p indices = Ok msgs
    ∧ (length msgs ≤ length (decode.Slice (scm.Parser_Decoder p) indices))%nat
    ∧ Forall (λ m, 0 < scm.ID m < 2 ^ 26 ∧ 0 ≤ scm.Type_ m < 2 ^ 4
                   ∧ 0 ≤ scm.TamperPhy m < 2 ^ 2 ∧ 0 ≤ scm.TamperEnc m < 2 ^ 2
                   ∧ 0 ≤ scm.Consumption m < 2 ^ 24
                   ∧ 0 ≤ scm.ChecksumVal m < 2 ^ 16) msgs.
Proof.
  rewrite Parse_spec. eexists. split; [reflexivity|]. split.
  - etransitivity; [apply length_omap_le|]. apply length_dedup_from.
  - apply Forall_forall. intros m Hm.
    apply elem_of_Parse in Hm as (pkt & _ & Hm). exact (emits_ranges p pkt m Hm).
Qed.

(** X7. The deduplication of [Parse] is on the raw bytes, and bytes 0 and 1
    of a packet are neither part of the checksum nor read by [NewSCM]. So
    when the slicer yields two packets that differ in those bytes only, and
    one passes the gates, both do, and [Parse] returns the same message
    twice. *)
Theorem Parse_same_message_twice (p : scm.Parser) (b0 b1 c0 c1 : byte)
    (payload : list byte) (m : scm.SCM) (indices : list Z) :
  (b0, b1) ≠ (c0, c1) →
  emits p (b0 :: b1 :: payload) m →
  scm.Parse (with_packets p [b0 :: b1 :: payload; c0 :: c1 :: payload]) indices
  = Ok [m; m].
Proof.
  intros Hne (Hlen & Hsum & Hm & Hid).
  assert (Hother : emits p (c0 :: c1 :: payload) m).
  { repeat split; try assumption.
    destruct payload as [|b2 [|b3 [|b4 [|b5 [|b6 [|b7 [|b8 [|b9 [|b10
      [|b11 [|? ?]]]]]]]]]]]; try discriminate Hlen.
    rewrite NewSCM_layout in Hm |- *. exact Hm. }
  assert (Hfirst : emits p (b0 :: b1 :: payload) m) by (repeat split; assumption).
  apply accepted_emits in Hother, Hfirst.
  rewrite Parse_with_packets. unfold first_occurrences. cbn [dedup_from].
  destruct (decide (b0 :: b1 :: payload ∈ [])) as [Hin|_]; [set_solver|].
  destruct (decide (c0 :: c1 :: payload ∈ [b0 :: b1 :: payload])) as [Hin|_].
  { apply list_elem_of_singleton in Hin. congruence. }
  rewrite !omap_cons_option, Hother, Hfirst. reflexivity.
Qed.

(** X7 at work: the sample packet, and the same with another first byte. *)
Lemma Parse_same_message_twice_witness :
  scm.Parse (with_packets (bch_parser [])
               [valid_packet; x00 :: drop 1 valid_packet]) [0; 1]
  = Ok [sample_scm; sample_scm].
Proof.
  apply (Parse_same_message_twice (bch_parser []) xf9 x53 x00 x53
           (drop 2 valid_packet) sample_scm [0; 1]).
  - discriminate.
  - repeat split; try (vm_compute; reflexivity). vm_compute. discriminate.
Defined.

(** ** The registry, over several registrations *)

(** X10. A row of registrations goes through exactly when every
    constructor is non-nil and every name is new: different from the names
    registered before and from the others of the row. The registry then
    holds each constructor under its name and, for all other names, what
    it held before; nothing is ever overwritten or removed. *)
Theorem Register_all_outcome {P : Type}
    (regs : list (string * option (parse.NewParserFunc P)))
    (parsers : gmap string (parse.NewParserFunc P)) :
  match Register_all regs parsers with
  | Ok parsers' =>
      NoDup regs.*1
      ∧ (∀ name, name ∈ regs.*1 → parsers !! name = None)
      ∧ (∀ name parserFn, (name, parserFn) ∈ regs →
           ∃ fn, parserFn = Some fn ∧ parsers' !! name = Some fn)
      ∧ (∀ name, name ∉ regs.*1 → parsers' !! name = parsers !! name)
  | Panic _ =>
      ¬ (NoDup regs.*1
         ∧ (∀ name, name ∈ regs.*1 → parsers !! name = None)
         ∧ Forall (λ reg, is_Some reg.2) regs)
  end.
Proof.
  revert parsers. induction regs as [|[name parserFn] rest IH]; intros parsers.
  - cbn. split; [constructor|]. set_solver.
  - cbn [Register_all]. unfold parse.Register.
    destruct parserFn as [fn|].
    2:{ cbn. intros (_ & _ & Hall). apply Forall_cons in Hall as [[? [=]] _]. }
    destruct (parsers !! name) eqn:Hname.
    { cbn [bind]. intros (_ & Hfresh & _).
      rewrite Hfresh in Hname by (cbn; apply list_elem_of_here). discriminate. }
    cbn [bind]. specialize (IH (<[name:=fn]> parsers)).
    destruct (Register_all rest (<[name:=fn]> parsers)) as [parsers'|msg].
    + destruct IH as (Hnodup & Hfresh & Hin & Hout).
      assert (Hnew : name ∉ rest.*1).
      { intros Hold. apply Hfresh in Hold. rewrite lookup_insert_eq in Hold.
        discriminate. }
      split; [cbn; constructor; assumption|]. split; [|split].
      * intros n Hn. cbn in Hn. apply elem_of_cons in Hn as [->|Hn]; [assumption|].
        pose proof (Hfresh n Hn) as Hnone.
        destruct (decide (name = n)) as [->|Hne].
        -- rewrite lookup_insert_eq in Hnone. discriminate.
        -- now rewrite lookup_insert_ne in Hnone.
      * intros n f Hn. apply elem_of_cons in Hn as [[= -> ->]|Hn]; [|now apply Hin].
        exists fn. split; [reflexivity|].
        rewrite (Hout name Hnew). apply lookup_insert_eq.
      * intros n Hn. cbn in Hn. apply not_elem_of_cons in Hn as [Hne Hn].
        rewrite (Hout n Hn). now apply lookup_insert_ne.
    + intros (Hnodup & Hfresh & Hall). apply IH.
      cbn in Hnodup. apply NoDup_cons in Hnodup as [Hnew Hnodup].
      apply Forall_cons in Hall as [_ Hall].
      split; [assumption|]. split; [|assumption].
      intros n Hn. rewrite lookup_insert_ne by (intros ->; contradiction).
      apply Hfresh. cbn. now apply list_elem_of_further.
Qed.

(** ** The filter chain, composed and reordered *)

Lemma Match_range_app {M S : Type} (fc1 fc2 : parse.FilterChain M S) (msg : M) (s : S) :
  parse.Match_range (fc1 ++ fc2) msg s
  = let (accepted, s') := parse.Match_range fc1 msg s in
    if accepted then parse.Match_range fc2 msg s' else (false, s').
Proof.
  revert s. induction fc1 as [|f fc1 IH]; intros s; cbn [app parse.Match_range];
    [reflexivity|].
  destruct (parse.Filter f msg s) as [[] s']; cbn [negb]; [apply IH | reflexivity].
Qed.

Lemma Match_pure_filters {M S : Type} (accepts : list (M → bool)) (msg : M) (s : S) :
  parse.Match (pure_filter <$> accepts) msg s
  = (forallb (λ accept, accept msg) accepts, s).
Proof.
  rewrite Match_eq_range.
  induction accepts as [|accept accepts IH]; [reflexivity|].
  cbn [fmap list_fmap parse.Match_range pure_filter parse.Filter forallb].
  destruct (accept msg); cbn [negb andb]; [exact IH | reflexivity].
Qed.

Lemma forallb_Permutation {A : Type} (f : A → bool) (l1 l2 : list A) :
  l1 ≡ₚ l2 → forallb f l1 = forallb f l2.
Proof.
  induction 1 as [|x l1 l2 _ IH|x y l|l1 l2 l3 _ IH1 _ IH2]; cbn [forallb].
  - reflexivity.
  - now rewrite IH.
  - destruct (f x), (f y); reflexivity.
  - now rewrite IH1.
Qed.

(** X11. [Match] of two chains one after the other runs the first and, if
    it accepts, the second on the state the first left; if the first
    rejects, no filter of the second is evaluated. For predicates without
    state the order in which they were added does not matter: a reordered
    chain gives the same answer. *)
Theorem FilterChain_Match_composition {M S : Type}
    (fc1 fc2 : parse.FilterChain M S) (accepts1 accepts2 : list (M → bool))
    (msg : M) (s : S) :
  parse.Match (fc1 ++ fc2) msg s
  = (let (accepted, s') := parse.Match fc1 msg s in
     if accepted then parse.Match fc2 msg s' else (false, s'))
  ∧ (accepts1 ≡ₚ accepts2 →
     parse.Match (pure_filter <$> accepts1) msg s
     = parse.Match (pure_filter <$> accepts2) msg s).
Proof.
  split.
  - rewrite !Match_eq_range, Match_range_app.
    destruct (parse.Match_range fc1 msg s) as [[] s']; [|reflexivity].
    now rewrite Match_eq_range.
  - intros Hperm. rewrite !(Match_pure_filters (S := S)).
    now rewrite (forallb_Permutation _ _ _ Hperm).
Qed.

(** ** Digits *)

(** The digits [format_digits] writes never come out empty: they start
    with the digit of some number. *)
Lemma format_digits_head (fuel : nat) (upper : bool) (base n : Z) (acc : string) :
  ∃ k rest,
    format_digits (S fuel) upper base n acc
    = String (digit_char upper (k mod base)) rest.
Proof.
  revert n acc. induction fuel as [|fuel IH]; intros n acc.
  - cbn [format_digits]. destruct (n / base =? 0); eauto.
  - change (format_digits (S (S fuel)) upper base n acc)
      with (if n / base =? 0 then String (digit_char upper (n mod base)) acc
            else format_digits (S fuel) upper base (n / base)
                   (String (digit_char upper (n mod base)) acc)).
    destruct (n / base =? 0); [eauto | apply IH].
Qed.

Lemma N_of_digit_char (d : Z) :
  0 ≤ d < 10 → N_of_ascii (digit_char false d) = Z.to_N (48 + d).
Proof.
  intros Hd. unfold digit_char. destruct (Z.ltb_spec d 10); [|lia].
  apply N_ascii_embedding. lia.
Qed.

(** The first character of a number in decimal is a decimal digit. *)
Lemma FormatInt_head (n : Z) :
  0 ≤ n →
  ∃ c rest, FormatInt n 10 = String c rest
            ∧ (48 ≤ N_of_ascii c ≤ 57)%N.
Proof.
  intros Hn. unfold FormatInt. destruct (Z.ltb_spec n 0); [lia|].
  destruct (format_digits_head 63 false 10 n EmptyString) as (k & rest & ->).
  do 2 eexists. split; [reflexivity|].
  pose proof (Z.mod_pos_bound k 10 ltac:(lia)) as Hk.
  rewrite N_of_digit_char by lia. lia.
Qed.

(** ** RSSI: Sanitize and String *)

Lemma round_half_even_nonneg (num e : Z) : 0 ≤ num → 0 ≤ round_half_even num e.
Proof.
  intros Hnum. unfold round_half_even.
  destruct (Z.leb_spec 0 e) as [He|He].
  - apply Z.mul_nonneg_nonneg; [assumption|]. apply Z.pow_nonneg. lia.
  - assert (Hd : 0 < 2 ^ (- e)) by (apply Z.pow_pos_nonneg; lia).
    pose proof (Z.div_pos num (2 ^ (- e)) Hnum Hd) as Hq.
    cbv zeta.
    destruct (2 * (num mod 2 ^ (- e)) <? 2 ^ (- e)); [assumption|].
    destruct (2 ^ (- e) <? 2 * (num mod 2 ^ (- e))); [lia|].
    destruct (Z.even (num / 2 ^ (- e))); lia.
Qed.

(** Only negative infinity is formatted as [-Inf]. *)
Lemma FormatFloat_f_neg_infinity (f : float) :
  FormatFloat_f f 3 = "-Inf" ↔ f = neg_infinity.
Proof.
  split; [|intros ->; vm_compute; reflexivity].
  intros Htext. apply Prim2SF_inj.
  change (Prim2SF neg_infinity) with (S754_infinity true).
  unfold FormatFloat_f in Htext.
  destruct (Prim2SF f) as [neg|neg| |neg m e].
  - destruct neg; vm_compute in Htext; discriminate Htext.
  - destruct neg; [reflexivity | discriminate Htext].
  - discriminate Htext.
  - exfalso. revert Htext.
    set (scaled := round_half_even (Z.pos m * 10 ^ Z.of_nat 3) e).
    assert (Hscaled : 0 ≤ scaled)
      by (apply round_half_even_nonneg; lia).
    assert (Hq : 0 ≤ scaled / 10 ^ Z.of_nat 3)
      by (apply Z.div_pos; [assumption | reflexivity]).
    destruct (FormatInt_head _ Hq) as (c & rest & -> & Hc).
    destruct neg.
    + rewrite !string_app_cons, string_app_nil_l. intros [= Heq _].
      subst c. vm_compute in Hc. destruct Hc as [_ Hc]. now apply Hc.
    + rewrite string_app_nil_l, !string_app_cons. intros [= Heq _].
      subst c. vm_compute in Hc. destruct Hc as [Hc _]. now apply Hc.
Qed.

Lemma Sanitize_not_neg_infinity (rssi : parse.RSSI) :
  parse.Sanitize rssi ≠ neg_infinity.
Proof.
  unfold parse.Sanitize. destruct (IsInf rssi (-1)) eqn:Hinf.
  - intros Heq. apply (f_equal Prim2SF) in Heq. vm_compute in Heq. discriminate.
  - intros Heq. apply IsInf_negative in Heq. congruence.
Qed.

(** X12. The text [RSSI.String] gives is [-Inf] for negative infinity and
    for no other value, so after [Sanitize] it is never [-Inf]. [Sanitize]
    changes nothing when applied again, and it lets positive infinity and
    NaN through: they are still formatted as [+Inf] and [NaN]. *)
Theorem RSSI_Sanitize_String (rssi : parse.RSSI) :
  (parse.RSSI_String rssi = "-Inf" ↔ rssi = neg_infinity)
  ∧ parse.RSSI_String (parse.Sanitize rssi) ≠ "-Inf"
  ∧ parse.Sanitize (parse.Sanitize rssi) = parse.Sanitize rssi
  ∧ parse.RSSI_String (parse.Sanitize infinity) = "+Inf"
  ∧ parse.RSSI_String (parse.Sanitize nan) = "NaN".
Proof.
  assert (Htext : ∀ f, parse.RSSI_String f = "-Inf" ↔ f = neg_infinity)
    by (intros f; apply FormatFloat_f_neg_infinity).
  split; [apply Htext|]. split; [|split].
  - rewrite Htext. apply Sanitize_not_neg_infinity.
  - unfold parse.Sanitize at 1.
    destruct (IsInf (parse.Sanitize rssi) (-1)) eqn:Hinf; [|reflexivity].
    apply IsInf_negative in Hinf. now apply Sanitize_not_neg_infinity in Hinf.
  - split; vm_compute; reflexivity.
Qed.

(** ** SCM.Record, read back *)

Lemma digit_val_digit_char (d : Z) :
  0 ≤ d < 36 → digit_val (digit_char false d) = Some d.
Proof.
  intros Hd. rewrite <- (Z2Nat.id d) by lia.
  assert (Hk : (Z.to_nat d < 36)%nat) by lia.
  revert Hk. generalize (Z.to_nat d). clear d Hd. intros k Hk.
  do 36 (destruct k as [|k]; [vm_compute; reflexivity|]). lia.
Qed.

(** [ParseUint] reads the digits [format_digits] wrote for [n] as [n], and
    goes on with what follows them. *)
Lemma ParseUint_digits_format (fuel : nat) (base maxVal n : Z) (acc : string) :
  2 ≤ base ≤ 36 → 0 ≤ n ≤ maxVal → maxVal < 2 ^ 64 →
  n < base ^ Z.of_nat fuel →
  ParseUint_digits (format_digits fuel false base n acc) base maxVal
    ((2 ^ 64 - 1) / base + 1) 0
  = ParseUint_digits acc base maxVal ((2 ^ 64 - 1) / base + 1) n.
Proof.
  intros Hbase. revert n acc.
  assert (Hcut : 0 ≤ (2 ^ 64 - 1) / base) by (apply Z.div_pos; lia).
  assert (Hstep : ∀ q d acc,
            0 ≤ d < base → 0 ≤ q → q * base + d ≤ maxVal → maxVal < 2 ^ 64 →
            ParseUint_digits (String (digit_char false d) acc) base maxVal
              ((2 ^ 64 - 1) / base + 1) q
            = ParseUint_digits acc base maxVal ((2 ^ 64 - 1) / base + 1)
                (q * base + d)).
  { intros q d acc Hd Hq Hfit Hmax. cbn [ParseUint_digits].
    rewrite digit_val_digit_char by lia.
    destruct (Z.leb_spec base d); [lia|].
    assert (Hqle : q ≤ (2 ^ 64 - 1) / base).
    { apply Z.div_le_lower_bound; [lia|]. nia. }
    destruct (Z.leb_spec ((2 ^ 64 - 1) / base + 1) q); [lia|].
    cbv zeta. unfold uint64. rewrite Z.mod_small by nia.
    destruct (Z.ltb_spec (q * base + d) (q * base)); [lia|].
    destruct (Z.ltb_spec maxVal (q * base + d)); [lia|].
    reflexivity. }
  induction fuel as [|fuel IH]; intros n acc Hn Hmax Hfuel.
  - cbn in Hfuel. assert (n = 0) as -> by lia. reflexivity.
  - cbn [format_digits].
    pose proof (Z.div_mod n base ltac:(lia)) as Hdm.
    pose proof (Z.mod_pos_bound n base ltac:(lia)) as Hmod.
    assert (Hq : 0 ≤ n / base) by (apply Z.div_pos; lia).
    destruct (Z.eqb_spec (n / base) 0) as [Hzero|Hnz].
    + rewrite Hstep by lia. f_equal. lia.
    + rewrite IH; [| nia | assumption |].
      * rewrite Hstep by lia. f_equal. lia.
      * rewrite Nat2Z.inj_succ, Z.pow_succ_r in Hfuel by lia.
        apply Z.div_lt_upper_bound; lia.
Qed.

(** [ParseUint] reads back what [FormatUint] wrote. *)
Lemma ParseUint_FormatUint (n base : Z) :
  2 ≤ base ≤ 36 → 0 ≤ n < 2 ^ 64 →
  ParseUint (FormatUint n base) base 64 = (n, None).
Proof.
  intros Hbase Hn. unfold FormatUint, uint64. rewrite Z.mod_small by lia.
  destruct (format_digits_head 63 false base n EmptyString) as (k & rest & Hhead).
  unfold ParseUint.
  destruct (format_digits 64 false base n EmptyString) as [|c s] eqn:Hdigits;
    [discriminate Hhead|].
  destruct (Z.leb_spec 2 base); [|lia].
  destruct (Z.leb_spec base 36); [|lia].
  cbn [andb negb].
  change ((64 <? 0) || (64 <? 64)) with false. cbv iota zeta.
  change (if 64 =? 0 then 64 else 64) with 64.
  rewrite <- Hdigits.
  rewrite ParseUint_digits_format; [reflexivity|lia|lia|lia|].
  eapply Z.lt_le_trans; [apply Hn|].
  apply Z.pow_le_mono_l. lia.
Qed.

Lemma read_number_FormatUint (n base : Z) :
  2 ≤ base ≤ 36 → 0 ≤ n < 2 ^ 64 →
  read_number base (FormatUint n base) = Some n.
Proof.
  intros Hbase Hn. unfold read_number. now rewrite ParseUint_FormatUint.
Qed.

Lemma read_hex_FormatUint (n : Z) :
  0 ≤ n < 2 ^ 64 → read_hex ("0x" +:+ FormatUint n 16) = Some n.
Proof.
  intros Hn. change ("0x" +:+ FormatUint n 16)
    with (String "0" (String "x" (FormatUint n 16))).
  cbn [read_hex]. change (Ascii.eqb "0" "0" && Ascii.eqb "x" "x") with true.
  cbv iota. apply read_number_FormatUint; lia.
Qed.

Lemma read_Record_of_Record (m : scm.SCM) :
  well_typed m → read_Record (scm.Record m) = Some m.
Proof.
  intros (Hid & Htype & Hphy & Henc & Hcons & Hsum).
  destruct m as [id type phy enc consumption checksum].
  cbn [scm.ID scm.Type_ scm.TamperPhy scm.TamperEnc scm.Consumption
         scm.ChecksumVal] in *.
  unfold scm.Record. cbv zeta. cbn [app read_Record].
  cbn [scm.ID scm.Type_ scm.TamperPhy scm.TamperEnc scm.Consumption
         scm.ChecksumVal].
  assert (2 ^ 32 < 2 ^ 64) by reflexivity.
  assert (2 ^ 16 < 2 ^ 64) by reflexivity.
  assert (2 ^ 8 < 2 ^ 64) by reflexivity.
  rewrite !read_number_FormatUint, !read_hex_FormatUint by lia.
  reflexivity.
Qed.

(** X14. [Record] loses nothing: read back with [ParseUint] (base 10, and
    base 16 after the prefix [0x]) the six fields of the record of a
    message give the message again. *)
Theorem SCM_Record_reads_back (m : scm.SCM) :
  well_typed m → read_Record (scm.Record m) = Some m.
Proof.
  exact (read_Record_of_Record m).
Qed.

(** X14 at work, on the sample message. *)
Lemma SCM_Record_reads_back_witness :
  read_Record ["123456"; "7"; "0x1"; "0x0"; "12109"; "0x8161"] = Some sample_scm.
Proof.
  apply (SCM_Record_reads_back sample_scm).
  unfold well_typed. cbn. lia.
Defined.

(** X15. What [Parse] returns can be written out and read back: every
    message of its result is recovered from its own [Record], so two
    messages of the result with the same record are the same message. *)
Theorem Parse_records_read_back (p : scm.Parser) (indices : list Z) :
  ∃ msgs,
    scm.Parse p indices = Ok msgs
    ∧ Forall (λ m, read_Record (scm.Record m) = Some m) msgs
    ∧ ∀ m1 m2, m1 ∈ msgs → m2 ∈ msgs →
        scm.Record m1 = scm.Record m2 → m1 = m2.
Proof.
  rewrite Parse_spec. eexists. split; [reflexivity|].
  match goal with |- Forall ?P ?l ∧ _ => assert (Hall : Forall P l) end.
  { apply Forall_forall. intros m Hm.
    apply elem_of_Parse in Hm as (pkt & _ & Hm).
    apply emits_ranges in Hm as (H1 & H2 & H3 & H4 & H5 & H6).
    apply read_Record_of_Record. unfold well_typed.
    assert (2 ^ 26 < 2 ^ 32) by reflexivity.
    assert (2 ^ 24 < 2 ^ 32) by reflexivity.
    assert (2 ^ 4 < 2 ^ 8) by reflexivity.
    assert (2 ^ 2 < 2 ^ 8) by reflexivity.
    repeat split; lia. }
  split; [exact Hall|].
  intros m1 m2 H1 H2 Heq.
  rewrite Forall_forall in Hall.
  pose proof (Hall m1 H1) as R1. pose proof (Hall m2 H2) as R2.
  rewrite Heq in R1. congruence.
Qed.

(** ** NewTLSConfig *)

